(** * MinPQ.ts: an array-backed binary min-heap, embedded in Rocq

    The TypeScript class [MinPQ<Key>] keeps its keys in a JavaScript array
    [pq] (positions 1 to [n]) and orders them with a caller-supplied
    [comparator].  The embedding follows the source method by method:

    - JavaScript has a single number type and [/] is real division, so the
      index [k/2] computed by [swim] and the quantities [(length - 1) / 4]
      and [length / 2] computed by [delMin] are rationals ([Q]); counters
      that only see [++], [--], [2*k] and [j+1] are integers ([Z]);
    - a JavaScript array is an object: reading or writing a key that is not
      an array index (such as [1.5]) reads or writes a named property and
      leaves [length] alone; a missing entry reads as [undefined];
    - arrays and [MinPQ] objects live in a store and are handled through
      references, so that [copy] and the traversal can be checked for
      aliasing;
    - the [while] loops of [swim], [sink] and of the traversal take fuel,
      and running out of it is a distinguished outcome;
    - a comparator is a function to numbers; for [insert], which hands
      [undefined] to it, the module [Raising] adds the comparator that
      throws on some arguments. *)

From Stdlib Require Import ZArith QArith Lia Lqa List Bool.
From stdpp Require Import base list.
Import ListNotations.

Open Scope Z_scope.

(** ** JavaScript values, numbers and arrays *)

(** The result of a comparator: a finite number or [NaN]. *)
Inductive number : Type :=
  | NaN
  | Num (q : Q).

(** [x > 0] on numbers; every comparison with [NaN] is false. *)
Definition gt0 (x : number) : bool :=
  match x with
  | NaN => false
  | Num q => negb (Qle_bool q 0)
  end.

(** [x <= 0] on numbers, as a proposition. *)
Definition le0 (x : number) : Prop :=
  match x with
  | NaN => False
  | Num q => (q <= 0)%Q
  end.

Definition Qltb (x y : Q) : bool := negb (Qle_bool y x).

(** A property key is an array index when it is an integer in
    [0, 2^32 - 2]. *)
Definition array_index (q : Q) : option nat :=
  let r := Qred q in
  if (Qden r =? 1)%positive && (0 <=? Qnum r) && (Qnum r <? 2 ^ 32 - 1)
  then Some (Z.to_nat (Qnum r))
  else None.

(** [new Array(len)] accepts an integer in [0, 2^32 - 1] only. *)
Definition array_length_ok (q : Q) : option nat :=
  let r := Qred q in
  if (Qden r =? 1)%positive && (0 <=? Qnum r) && (Qnum r <? 2 ^ 32)
  then Some (Z.to_nat (Qnum r))
  else None.

(** The exceptions a call can end with: the two the class raises itself,
    and whatever the caller's comparator throws. *)
Inductive Error : Type :=
  | Underflow          (* Error("Priority queue underflow") *)
  | RangeError         (* Invalid array length *)
  | ComparatorError.   (* thrown inside the comparator, a TypeError say *)

(** How a call ends: a value, an exception, or the model's fuel ran out. *)
Inductive Result (A : Type) : Type :=
  | Ok (a : A)
  | Throw (e : Error)
  | OutOfFuel.
Arguments Ok {A} a.
Arguments Throw {A} e.
Arguments OutOfFuel {A}.

Declare Scope meth_scope.
Delimit Scope meth_scope with meth.

Section Model.

Context {Key : Type}.

(** A slot holds a key or [undefined] (holes read as [undefined] too). *)
Definition value : Type := option Key.

Definition Comparator : Type := value -> value -> number.

Record JSArray : Type := mkArray {
  elems : list value;          (* the indexed part, [length] entries *)
  props : list (Q * value)     (* named properties such as "1.5" *)
}.

Fixpoint prop_get (ps : list (Q * value)) (q : Q) : value :=
  match ps with
  | [] => None
  | (k, v) :: ps' => if Qeq_bool k q then v else prop_get ps' q
  end.

Fixpoint prop_set (ps : list (Q * value)) (q : Q) (v : value)
  : list (Q * value) :=
  match ps with
  | [] => [(q, v)]
  | (k, w) :: ps' =>
      if Qeq_bool k q then (k, v) :: ps' else (k, w) :: prop_set ps' q v
  end.

(** [a[q]] *)
Definition arr_get (a : JSArray) (q : Q) : value :=
  match array_index q with
  | Some i => default None (elems a !! i)
  | None => prop_get (props a) q
  end.

(** [a[q] = v]; writing at an index past the end extends the array. *)
Definition arr_set (q : Q) (v : value) (a : JSArray) : JSArray :=
  match array_index q with
  | Some i =>
      if (i <? length (elems a))%nat
      then mkArray (<[i:=v]> (elems a)) (props a)
      else mkArray (elems a ++ replicate (i - length (elems a)) None ++ [v])
                   (props a)
  | None => mkArray (elems a) (prop_set (props a) q v)
  end.

Definition arr_length (a : JSArray) : Z := Z.of_nat (length (elems a)).

Definition empty_array : JSArray := mkArray [] [].

(** ** The store *)

Definition aref : Type := nat.
Definition oref : Type := nat.

(** The three private fields of a [MinPQ] instance. *)
Record MinPQ : Type := mkPQ {
  pq : aref;
  n : Z;
  comparator : Comparator
}.

Record World : Type := mkWorld {
  objs : list MinPQ;
  arrs : list JSArray
}.

Definition empty_world : World := mkWorld [] [].

(** A method body: it runs against [this] and the store. *)
Definition Meth (A : Type) : Type := oref -> World -> Result A * World.

Definition ret {A} (a : A) : Meth A := fun _ w => (Ok a, w).

Definition bind {A B} (m : Meth A) (f : A -> Meth B) : Meth B :=
  fun this w =>
    match m this w with
    | (Ok a, w') => f a this w'
    | (Throw e, w') => (Throw e, w')
    | (OutOfFuel, w') => (OutOfFuel, w')
    end.

Definition throw {A} (e : Error) : Meth A := fun _ w => (Throw e, w).

Definition out_of_fuel {A} : Meth A := fun _ w => (OutOfFuel, w).

(** [o.m(...)]: run [m] with [o] as its receiver. *)
Definition on {A} (o : oref) (m : Meth A) : Meth A := fun _ w => m o w.

(** [try { m } catch]: the outcome of [m] as a value. *)
Definition try {A} (m : Meth A) : Meth (Result A) :=
  fun this w => let (r, w') := m this w in (Ok r, w').

Notation "x <- m ;; k" := (bind m (fun x => k))
  (at level 100, m at next level, right associativity) : meth_scope.
Notation "m ;;; k" := (bind m (fun _ => k))
  (at level 100, right associativity) : meth_scope.
Local Open Scope meth_scope.

(** *** Field and array accesses

    References held by a live program are always allocated; a dangling
    one reads as a default and is not written. *)

Definition the_obj (w : World) (o : oref) : MinPQ :=
  default (mkPQ 0%nat 0 (fun _ _ => NaN)) (objs w !! o).

Definition the_arr (w : World) (r : aref) : JSArray :=
  default empty_array (arrs w !! r).

(** [this.n] *)
Definition get_n : Meth Z := fun this w => (Ok (n (the_obj w this)), w).

(** [this.n = z] *)
Definition set_n (z : Z) : Meth unit := fun this w =>
  let ob := the_obj w this in
  (Ok tt, mkWorld (<[this := mkPQ (pq ob) z (comparator ob)]> (objs w))
                  (arrs w)).

(** [this.pq] (the reference) *)
Definition get_pq : Meth aref := fun this w => (Ok (pq (the_obj w this)), w).

(** [this.pq = r] *)
Definition set_pq (r : aref) : Meth unit := fun this w =>
  let ob := the_obj w this in
  (Ok tt, mkWorld (<[this := mkPQ r (n ob) (comparator ob)]> (objs w))
                  (arrs w)).

(** [this.comparator] *)
Definition get_comparator : Meth Comparator := fun this w =>
  (Ok (comparator (the_obj w this)), w).

(** [r[q]] *)
Definition load (r : aref) (q : Q) : Meth value := fun _ w =>
  (Ok (arr_get (the_arr w r) q), w).

(** [r[q] = v] *)
Definition store (r : aref) (q : Q) (v : value) : Meth unit := fun _ w =>
  (Ok tt, mkWorld (objs w) (<[r := arr_set q v (the_arr w r)]> (arrs w))).

(** [this.pq[q]] *)
Definition this_load (q : Q) : Meth value := a <- get_pq ;; load a q.

(** [this.pq[q] = v] *)
Definition this_store (q : Q) (v : value) : Meth unit :=
  a <- get_pq ;; store a q v.

(** [this.pq.length] *)
Definition this_length : Meth Z := fun this w =>
  (Ok (arr_length (the_arr w (pq (the_obj w this)))), w).

(** [new Array(capacity)]: a fresh array of holes, or a RangeError. *)
Definition new_Array (capacity : Q) : Meth aref := fun _ w =>
  match array_length_ok capacity with
  | Some len =>
      (Ok (length (arrs w)),
       mkWorld (objs w) (arrs w ++ [mkArray (replicate len None) []]))
  | None => (Throw RangeError, w)
  end.

(** [[...r]]: a fresh array with the indexed entries of [r]; named
    properties are not copied. *)
Definition spread (r : aref) : Meth aref := fun _ w =>
  (Ok (length (arrs w)),
   mkWorld (objs w) (arrs w ++ [mkArray (elems (the_arr w r)) []])).

(** ** The class *)

(** [constructor(comparator, initCapacity?)]; [initCapacity || 1] turns a
    missing or zero capacity into 1. *)
Definition new_MinPQ (cmp : Comparator) (initCapacity : option Q)
  : Meth oref :=
  a <- new_Array (match initCapacity with
                  | None => 1
                  | Some c => if Qeq_bool c 0 then 1 else c
                  end)%Q ;;
  fun _ w => (Ok (length (objs w)),
              mkWorld (objs w ++ [mkPQ a 0 cmp]) (arrs w)).

Definition isEmpty : Meth bool := c <- get_n ;; ret (c =? 0).

Definition size : Meth Z := get_n.

Definition min : Meth value :=
  e <- isEmpty ;;
  if e then throw Underflow else this_load 1.

(** The body of the [for] loop of [resize], for [i] running over [idx]. *)
Fixpoint resize_loop (temp : aref) (idx : list Z) : Meth unit :=
  match idx with
  | [] => ret tt
  | i :: idx' =>
      v <- this_load (inject_Z i) ;;
      store temp (inject_Z i) v ;;;
      resize_loop temp idx'
  end.

Definition resize (capacity : Q) : Meth unit :=
  temp <- new_Array capacity ;;
  c <- get_n ;;
  resize_loop temp (map Z.of_nat (seq 1 (Z.to_nat c))) ;;;
  set_pq temp.

Definition greater (i j : Q) : Meth bool :=
  x <- this_load i ;;
  y <- this_load j ;;
  cmp <- get_comparator ;;
  ret (gt0 (cmp x y)).

Definition exch (i j : Q) : Meth unit :=
  swap <- this_load i ;;
  v <- this_load j ;;
  this_store i v ;;;
  this_store j swap.

Fixpoint swim (fuel : nat) (k : Q) : Meth unit :=
  c <- (if Qltb 1 k then greater (k / 2) k else ret false) ;;
  if c then
    match fuel with
    | O => out_of_fuel
    | S fuel' => exch k (k / 2) ;;; swim fuel' (k / 2)
    end
  else ret tt.

Fixpoint sink (fuel : nat) (k : Z) : Meth unit :=
  c <- get_n ;;
  if 2 * k <=? c then
    match fuel with
    | O => out_of_fuel
    | S fuel' =>
        let j := 2 * k in
        c' <- get_n ;;
        g <- (if j <? c' then greater (inject_Z j) (inject_Z (j + 1))
              else ret false) ;;
        let j := if g then j + 1 else j in
        g' <- greater (inject_Z k) (inject_Z j) ;;
        if negb g' then ret tt
        else exch (inject_Z k) (inject_Z j) ;;; sink fuel' j
    end
  else ret tt.

Definition insert (fuel : nat) (x : Key) : Meth unit :=
  c <- get_n ;;
  len <- this_length ;;
  (if c =? len - 1 then resize (2 * inject_Z len) else ret tt) ;;;
  c <- get_n ;;
  set_n (c + 1) ;;;
  this_store (inject_Z (c + 1)) (Some x) ;;;
  c <- get_n ;;
  swim fuel (inject_Z c).

Definition delMin (fuel : nat) : Meth value :=
  e <- isEmpty ;;
  if e then throw Underflow else
  min <- this_load 1 ;;
  c <- get_n ;;
  set_n (c - 1) ;;;
  exch 1 (inject_Z c) ;;;
  sink fuel 1 ;;;
  c <- get_n ;;
  v <- this_load (inject_Z c) ;;
  this_store (inject_Z (c + 1)) v ;;;
  c <- get_n ;;
  len <- this_length ;;
  (if (0 <? c) && Qeq_bool (inject_Z c) ((inject_Z len - 1) / 4)
   then resize (inject_Z len / 2) else ret tt) ;;;
  ret min.

(** [isMinHeap(k)]: the recursion doubles [k], so it takes fuel as well. *)
Fixpoint isMinHeap (fuel : nat) (k : Z) : Meth bool :=
  c <- get_n ;;
  if c <? k then ret true else
  match fuel with
  | O => out_of_fuel
  | S fuel' =>
      let left := 2 * k in
      let right := 2 * k + 1 in
      gl <- (if left <=? c then greater (inject_Z k) (inject_Z left)
             else ret false) ;;
      if gl then ret false else
      gr <- (if right <=? c then greater (inject_Z k) (inject_Z right)
             else ret false) ;;
      if gr then ret false else
      l <- isMinHeap fuel' left ;;
      if l then isMinHeap fuel' right else ret false
  end.

Definition copy : Meth oref :=
  cmp <- get_comparator ;;
  c <- new_MinPQ cmp (Some 0%Q) ;;
  a <- get_pq ;;
  r <- spread a ;;
  on c (set_pq r) ;;;
  k <- get_n ;;
  on c (set_n k) ;;;
  ret c.

(** What the generator yields: [{ value: v, done: false }] or
    [{ done: true }]. *)
Inductive IterResult : Type :=
  | Yield (v : value)
  | YieldDone.

(** The generator run to completion on [this] (the copy): the items it
    yields, and how it ends. *)
Fixpoint drain (sfuel fuel : nat) : Meth (list IterResult * Result unit) :=
  e <- isEmpty ;;
  if e then ret ([YieldDone], Ok tt) else
  match fuel with
  | O => ret ([], OutOfFuel)
  | S fuel' =>
      r <- try (delMin sfuel) ;;
      match r with
      | Ok v =>
          rest <- drain sfuel fuel' ;;
          ret (Yield v :: fst rest, snd rest)
      | Throw e => ret ([], Throw e)
      | OutOfFuel => ret ([], OutOfFuel)
      end
  end.

(** [*[Symbol.iterator]()] *)
Definition iterator (fuel : nat) : Meth (list IterResult * Result unit) :=
  c <- try copy ;;
  match c with
  | Ok c => on c (drain fuel fuel)
  | Throw e => ret ([], Throw e)
  | OutOfFuel => ret ([], OutOfFuel)
  end.

(** ** Notions used to state the properties *)

(** What an instance looks like from outside: its count, its comparator and
    the contents of its backing array.  Defined only when the object and
    its array are allocated. *)
Definition view (w : World) (o : oref) : option (Z * Comparator * JSArray) :=
  match objs w !! o with
  | Some ob =>
      match arrs w !! pq ob with
      | Some a => Some (n ob, comparator ob, a)
      | None => None
      end
  | None => None
  end.

Definition wf (w : World) (o : oref) : Prop := is_Some (view w o).

(** The heap property of the data model, on positions 1 to [n]. *)
Definition heap_ordered (w : World) (o : oref) : Prop :=
  let ob := the_obj w o in
  let a := the_arr w (pq ob) in
  forall k : Z, 1 <= k <= n ob ->
    (2 * k <= n ob ->
     le0 (comparator ob (arr_get a (inject_Z k))
                        (arr_get a (inject_Z (2 * k))))) /\
    (2 * k + 1 <= n ob ->
     le0 (comparator ob (arr_get a (inject_Z k))
                        (arr_get a (inject_Z (2 * k + 1))))).

(** A caller's mutation of a heap; an exception is caught by the caller. *)
Inductive Op : Type :=
  | OpInsert (x : Key)
  | OpDelMin.

Definition run_op (fuel : nat) (op : Op) : Meth unit :=
  match op with
  | OpInsert x => try (insert fuel x) ;;; ret tt
  | OpDelMin => try (delMin fuel) ;;; ret tt
  end.

Fixpoint run_ops (fuel : nat) (ops : list Op) : Meth unit :=
  match ops with
  | [] => ret tt
  | op :: ops' => run_op fuel op ;;; run_ops fuel ops'
  end.

(** The array that [resize] builds: [len] holes, then positions [idx] of
    [a] copied over. *)
Definition resize_arr (len : nat) (a : JSArray) (idx : list Z) : JSArray :=
  fold_left (fun t i => arr_set (inject_Z i) (arr_get a (inject_Z i)) t)
            idx (mkArray (replicate len None) []).

(** Method bodies built from accesses to the receiver's own fields and
    backing array. *)
Inductive local : forall {A : Type}, Meth A -> Prop :=
  | local_ret A (a : A) : local (ret a)
  | local_bind A B (m : Meth A) (f : A -> Meth B) :
      local m -> (forall a, local (f a)) -> local (bind m f)
  | local_throw A (e : Error) : local (@throw A e)
  | local_out_of_fuel A : local (@out_of_fuel A)
  | local_try A (m : Meth A) : local m -> local (try m)
  | local_get_n : local get_n
  | local_set_n z : local (set_n z)
  | local_get_comparator : local get_comparator
  | local_this_load q : local (this_load q)
  | local_this_store q v : local (this_store q v)
  | local_this_length : local this_length
  | local_resize c : local (resize c).

(** [m] keeps the state property [I] of its receiver. *)
Definition preserves {A} (I : oref -> World -> Prop) (m : Meth A) : Prop :=
  forall this w, I this w -> I this (snd (m this w)).

(** The receiver and [o] are different objects with different backing
    arrays, the receiver's array is allocated, and [o] looks like [V]. *)
Definition apart (o : oref) (V : Z * Comparator * JSArray)
  (this : oref) (w : World) : Prop :=
  this <> o /\ view w o = Some V /\
  pq (the_obj w this) <> pq (the_obj w o) /\
  (pq (the_obj w this) < length (arrs w))%nat.

(** Two receivers that look the same. *)
Definition same_view (o1 : oref) (w1 : World) (o2 : oref) (w2 : World)
  : Prop :=
  exists V, view w1 o1 = Some V /\ view w2 o2 = Some V.

(** The outcome of [m] depends on the receiver's view only. *)
Definition det {A} (m : Meth A) : Prop :=
  forall o1 w1 o2 w2, same_view o1 w1 o2 w2 ->
    fst (m o1 w1) = fst (m o2 w2) /\
    same_view o1 (snd (m o1 w1)) o2 (snd (m o2 w2)).

Definition keeps_n {A} (m : Meth A) : Prop :=
  forall this w, n (the_obj (snd (m this w)) this) = n (the_obj w this).

Definition terminates {A} (m : Meth A) : Prop :=
  forall this w, fst (m this w) <> OutOfFuel.

Definition no_underflow {A} (m : Meth A) : Prop :=
  forall this w, fst (m this w) <> Throw Underflow.

Definition returns_only {A} (a : A) (m : Meth A) : Prop :=
  forall this w v, fst (m this w) = Ok v -> v = a.

(** ** Further notions: capacity, entries, order on lists *)

(** The count fits the backing array: positions 1 to [n] exist. *)
Definition cap_ok (w : World) (o : oref) : Prop :=
  exists z c a, view w o = Some (z, c, a) /\
                0 <= z <= arr_length a - 1 /\ arr_length a < 2 ^ 32.

(** The store [w] with the receiver's backing array replaced by [a]. *)
Definition with_arr (w : World) (this : oref) (a : JSArray) : World :=
  mkWorld (objs w) (<[pq (the_obj w this) := a]> (arrs w)).

(** The store [w] with the receiver's count replaced by [z]. *)
Definition with_n (w : World) (this : oref) (z : Z) : World :=
  mkWorld (<[this := mkPQ (pq (the_obj w this)) z
                          (comparator (the_obj w this))]> (objs w))
          (arrs w).

(** Position [p] of a list of slots. *)
Definition at_ (l : list value) (p : Z) : value :=
  default None (l !! Z.to_nat p).

(** The live entries: positions 1 to [z]. *)
Definition keys (l : list value) (z : Z) : list value :=
  take (Z.to_nat z) (drop 1 l).

Definition is_child (p ch : Z) : Prop := ch = 2 * p \/ ch = 2 * p + 1.

(** The heap property on positions 1 to [z] of a list of slots. *)
Definition heap_list (cmp : Comparator) (l : list value) (z : Z) : Prop :=
  forall p ch, 1 <= p -> is_child p ch -> ch <= z ->
    le0 (cmp (at_ l p) (at_ l ch)).

(** The heap property everywhere except between [k] and its children;
    the parent of [k] is below the children of [k]. *)
Definition almost_heap (cmp : Comparator) (l : list value) (z k : Z)
  : Prop :=
  (forall p ch, 1 <= p -> is_child p ch -> ch <= z -> p <> k ->
     le0 (cmp (at_ l p) (at_ l ch))) /\
  (forall g ch, 1 <= g -> is_child g k -> is_child k ch -> ch <= z ->
     le0 (cmp (at_ l g) (at_ l ch))).

(** Positions 1 to [z] hold keys, not [undefined]. *)
Definition filled (l : list value) (z : Z) : Prop :=
  forall p, 1 <= p <= z -> at_ l p <> None.

(** The comparator is a total preorder on keys. *)
Definition total_preorder (cmp : Comparator) : Prop :=
  (forall x y : Key,
     gt0 (cmp (Some x) (Some y)) = false -> le0 (cmp (Some x) (Some y))) /\
  (forall x y : Key,
     gt0 (cmp (Some x) (Some y)) = true -> le0 (cmp (Some y) (Some x))) /\
  (forall x y z : Key,
     le0 (cmp (Some x) (Some y)) -> le0 (cmp (Some y) (Some z)) ->
     le0 (cmp (Some x) (Some z))).



(** The values a completed traversal has yielded. *)
Fixpoint yielded (ys : list IterResult) : list value :=
  match ys with
  | [] => []
  | Yield v :: ys' => v :: yielded ys'
  | YieldDone :: ys' => yielded ys'
  end.

(** A list of slots in non-decreasing order. *)
Fixpoint ascending (cmp : Comparator) (vs : list value) : Prop :=
  match vs with
  | [] => True
  | v :: vs' => Forall (fun v' => le0 (cmp v v')) vs' /\ ascending cmp vs'
  end.

(** The slots [l] with positions [k] and [j] exchanged. *)
Definition swap (l : list value) (k j : Z) : list value :=
  <[Z.to_nat j := at_ l k]> (<[Z.to_nat k := at_ l j]> l).

(** The count fits the array and the array length is 1 or even: the state
    of a queue built with the default capacity. *)
Definition steady (w : World) (o : oref) : Prop :=
  exists z c a, view w o = Some (z, c, a) /\
                0 <= z <= arr_length a - 1 /\ arr_length a < 2 ^ 32 /\
                (arr_length a = 1 \/ Z.even (arr_length a) = true).

End Model.

(** ** The demonstration script: a numeric comparator [(a, b) => a - b] *)

Definition num_cmp : @Comparator Z := fun a b =>
  match a, b with
  | Some x, Some y => Num (inject_Z (x - y))
  | _, _ => NaN      (* undefined - y and x - undefined are NaN *)
  end.

Notation "x <- m ;; k" := (bind m (fun x => k))
  (at level 100, m at next level, right associativity) : meth_scope.
Notation "m ;;; k" := (bind m (fun _ => k))
  (at level 100, right associativity) : meth_scope.
Open Scope meth_scope.

(** [var q = new Queue<number>((a, b) => a - b)] followed by inserts. *)
Definition build (fuel : nat) (keys : list Z) : Meth (Key:=Z) oref :=
  q <- new_MinPQ num_cmp None ;;
  on q (fold_right (fun x k => insert fuel x ;;; k) (ret tt) keys) ;;;
  ret q.

(** ** Sample heaps over that comparator *)

(** [insert(5); insert(3); insert(2)] on a fresh queue. *)
Definition demo : @World Z := snd (build 10 [5; 3; 2] 0%nat empty_world).

(** A fresh queue: [new Queue<number>((a, b) => a - b)]. *)
Definition fresh : @World Z := snd (new_MinPQ num_cmp None 0%nat empty_world).

(** [insert(5); insert(3)]. *)
Definition pair : @World Z := snd (build 10 [5; 3] 0%nat empty_world).

(** [insert(1); insert(2); insert(3); insert(4)]: the array has grown to 8. *)
Definition four : @World Z := snd (build 10 [1; 2; 3; 4] 0%nat empty_world).

(** The backing array of object [o], as a list. *)
Definition slots (w : @World Z) (o : oref) : list (@value Z) :=
  elems (the_arr w (pq (the_obj w o))).

(** Call [delMin] [k] times and collect what comes back. *)
Fixpoint extract_all (fuel k : nat) : Meth (Key:=Z) (list (@value Z)) :=
  match k with
  | O => ret []
  | S k' => v <- delMin fuel ;; vs <- extract_all fuel k' ;; ret (v :: vs)
  end.

(** [new Queue<number>((a, b) => a - b, 5); insert(4); insert(6)]. *)
Definition five : @World Z :=
  snd ((q <- new_MinPQ num_cmp (Some 5%Q) ;;
        on q (insert 10 4 ;;; insert 10 6)) 0%nat empty_world).

(** The backing array of [four]. *)
Definition four_arr : @JSArray Z :=
  mkArray [None; Some 1; Some 2; Some 3; Some 4; None; None; None] [].

(** A caller's sequence of operations on a fresh queue. *)
Definition sample_ops : list (@Op Z) := [OpInsert 5; OpInsert 3; OpDelMin].

(** ** Comparators that throw

    The comparator is the caller's JavaScript code: instead of returning a
    number it may throw, as [(a, b) => a.p - b.p] does on an [undefined]
    argument.  [raises x y] tells for which arguments the receiver's
    comparator does so; nothing in the class catches the exception, so it
    ends [greater], [swim] and [insert].  With [raises] false everywhere
    these are the methods of the class as embedded above. *)
Module Raising.
Section Class.

Context {Key : Type}.
Variable raises : @value Key -> @value Key -> bool.

Definition greater (i j : Q) : Meth (Key:=Key) bool :=
  x <- this_load i ;;
  y <- this_load j ;;
  cmp <- get_comparator ;;
  if raises x y then throw ComparatorError else ret (gt0 (cmp x y)).

Fixpoint swim (fuel : nat) (k : Q) : Meth (Key:=Key) unit :=
  c <- (if Qltb 1 k then greater (k / 2) k else ret false) ;;
  if c then
    match fuel with
    | O => out_of_fuel
    | S fuel' => exch k (k / 2) ;;; swim fuel' (k / 2)
    end
  else ret tt.

Definition insert (fuel : nat) (x : Key) : Meth unit :=
  c <- get_n ;;
  len <- this_length ;;
  (if c =? len - 1 then resize (2 * inject_Z len) else ret tt) ;;;
  c <- get_n ;;
  set_n (c + 1) ;;;
  this_store (inject_Z (c + 1)) (Some x) ;;;
  c <- get_n ;;
  swim fuel (inject_Z c).

End Class.
End Raising.

(** A comparator that reads a field of its arguments, and so throws as soon
    as one of them is [undefined]. *)
Definition raises_on_undefined : @value Z -> @value Z -> bool := fun a b =>
  match a, b with
  | Some _, Some _ => false
  | _, _ => true
  end.

(** * Properties *)

Section Facts.

Context {Key : Type}.

Local Abbreviation Meth := (@Meth Key).
Implicit Types (w : @World Key) (o this : oref) (a : @JSArray Key).

(** ** The store *)

Lemma the_obj_lookup w o ob : objs w !! o = Some ob -> the_obj w o = ob.
Proof. unfold the_obj. intros ->. reflexivity. Qed.

Lemma the_arr_lookup w r a : arrs w !! r = Some a -> the_arr w r = a.
Proof. unfold the_arr. intros ->. reflexivity. Qed.

Lemma view_inv w o z c a :
  view w o = Some (z, c, a) ->
  exists ob, objs w !! o = Some ob /\ n ob = z /\ comparator ob = c /\
             arrs w !! pq ob = Some a.
Proof.
  unfold view. destruct (objs w !! o) as [ob|] eqn:Hob; [|discriminate].
  destruct (arrs w !! pq ob) as [a'|] eqn:Ha; [|discriminate].
  intros [= <- <- <-]. exists ob. auto.
Qed.

Lemma view_intro w o ob a :
  objs w !! o = Some ob -> arrs w !! pq ob = Some a ->
  view w o = Some (n ob, comparator ob, a).
Proof. unfold view. intros -> ->. reflexivity. Qed.

Lemma world_eta w : mkWorld (objs w) (arrs w) = w.
Proof. destruct w; reflexivity. Qed.

(** ** What [resize] computes *)

Lemma resize_loop_spec idx : forall this w temp t,
  arrs w !! temp = Some t ->
  temp <> pq (the_obj w this) ->
  resize_loop temp idx this w =
  (Ok tt,
   mkWorld (objs w)
     (<[temp := fold_left
          (fun t i => arr_set (inject_Z i)
             (arr_get (the_arr w (pq (the_obj w this))) (inject_Z i)) t)
          idx t]> (arrs w))).
Proof.
  induction idx as [|i idx IH]; intros this w temp t Ht Hne; simpl.
  - rewrite list_insert_id by assumption. now rewrite world_eta.
  - unfold bind, this_load, get_pq, load, store, bind; simpl.
    rewrite (the_arr_lookup _ _ _ Ht).
    set (w1 := mkWorld _ _).
    assert (Hobj : the_obj w1 this = the_obj w this) by reflexivity.
    assert (Harr : the_arr w1 (pq (the_obj w this)) =
                   the_arr w (pq (the_obj w this))).
    { unfold the_arr, w1; simpl.
      rewrite list_lookup_insert_ne by assumption. reflexivity. }
    rewrite (IH this w1 temp
               (arr_set (inject_Z i)
                  (arr_get (the_arr w (pq (the_obj w this))) (inject_Z i)) t)).
    + rewrite Hobj, Harr. unfold w1; simpl.
      now rewrite list_insert_insert_eq.
    + unfold w1; simpl. apply list_lookup_insert_eq.
      eapply lookup_lt_Some; eassumption.
    + now rewrite Hobj.
Qed.

Lemma resize_spec c len this w :
  array_length_ok c = Some len ->
  (pq (the_obj w this) < length (arrs w))%nat ->
  resize c this w =
  (Ok tt,
   mkWorld
     (<[this := mkPQ (length (arrs w)) (n (the_obj w this))
                     (comparator (the_obj w this))]> (objs w))
     (arrs w ++
      [resize_arr len (the_arr w (pq (the_obj w this)))
         (map Z.of_nat (seq 1 (Z.to_nat (n (the_obj w this)))))])).
Proof.
  intros Hc Hlt. unfold resize, bind at 1, new_Array. rewrite Hc.
  unfold bind at 1, get_n; simpl.
  set (w1 := mkWorld _ _). unfold bind at 1.
  assert (Hobj : the_obj w1 this = the_obj w this) by reflexivity.
  assert (Harr : the_arr w1 (pq (the_obj w this)) =
                 the_arr w (pq (the_obj w this))).
  { unfold the_arr, w1; simpl. now rewrite lookup_app_l. }
  rewrite Hobj.
  rewrite (resize_loop_spec _ this w1 (length (arrs w))
             (mkArray (replicate len None) [])).
  - unfold set_pq; simpl. rewrite Hobj, Harr. unfold w1; simpl.
    do 2 f_equal.
    rewrite insert_app_r_alt by lia.
    now replace (length (arrs w) - length (arrs w))%nat with 0%nat by lia.
  - unfold w1; simpl. rewrite lookup_app_r by lia.
    now replace (length (arrs w) - length (arrs w))%nat with 0%nat by lia.
  - rewrite Hobj. lia.
Qed.

Lemma resize_throws c this w :
  array_length_ok c = None -> resize c this w = (Throw RangeError, w).
Proof. intros Hc. unfold resize, bind, new_Array. now rewrite Hc. Qed.

(** ** Field accesses through the view *)

Lemma view_the w o z c a :
  view w o = Some (z, c, a) ->
  n (the_obj w o) = z /\ comparator (the_obj w o) = c /\
  the_arr w (pq (the_obj w o)) = a /\
  (o < length (objs w))%nat /\
  (pq (the_obj w o) < length (arrs w))%nat /\
  arrs w !! pq (the_obj w o) = Some a.
Proof.
  intros (ob & Hob & <- & <- & Ha)%view_inv.
  rewrite (the_obj_lookup _ _ _ Hob), (the_arr_lookup _ _ _ Ha).
  repeat split; eauto using lookup_lt_Some.
Qed.

Lemma the_obj_insert_ne w o o' x ars :
  o' <> o -> the_obj (mkWorld (<[o' := x]> (objs w)) ars) o = the_obj w o.
Proof.
  intros Hne. unfold the_obj; simpl. now rewrite list_lookup_insert_ne.
Qed.

Lemma the_obj_insert_eq w o x ars :
  (o < length (objs w))%nat ->
  the_obj (mkWorld (<[o := x]> (objs w)) ars) o = x.
Proof.
  intros Hlt. unfold the_obj; simpl. now rewrite list_lookup_insert_eq.
Qed.

Lemma the_obj_insert_ge w o x ars :
  (length (objs w) <= o)%nat ->
  the_obj (mkWorld (<[o := x]> (objs w)) ars) o = the_obj w o.
Proof.
  intros Hge. unfold the_obj; simpl. now rewrite list_insert_ge.
Qed.

Lemma set_n_view z' w o z c a :
  view w o = Some (z, c, a) ->
  view (snd (set_n z' o w)) o = Some (z', c, a).
Proof.
  intros (ob & Hob & Hn & Hc & Ha)%view_inv.
  unfold set_n. rewrite (the_obj_lookup _ _ _ Hob). simpl.
  rewrite <- Hc.
  apply (view_intro _ o (mkPQ (pq ob) z' (comparator ob))); simpl.
  - apply list_lookup_insert_eq. eauto using lookup_lt_Some.
  - exact Ha.
Qed.

Lemma this_store_view q v w o z c a :
  view w o = Some (z, c, a) ->
  view (snd (this_store q v o w)) o = Some (z, c, arr_set q v a).
Proof.
  intros (ob & Hob & Hn & Hc & Ha)%view_inv.
  unfold this_store, bind, get_pq, store; simpl.
  rewrite (the_obj_lookup _ _ _ Hob), (the_arr_lookup _ _ _ Ha).
  rewrite <- Hn, <- Hc.
  apply (view_intro _ o ob); simpl; [exact Hob|].
  apply list_lookup_insert_eq. eauto using lookup_lt_Some.
Qed.

Lemma resize_view cap len w o z c a :
  view w o = Some (z, c, a) ->
  array_length_ok cap = Some len ->
  fst (resize cap o w) = Ok tt /\
  view (snd (resize cap o w)) o =
    Some (z, c, resize_arr len a (map Z.of_nat (seq 1 (Z.to_nat z)))).
Proof.
  intros H Hcap.
  destruct (view_the _ _ _ _ _ H) as (Hn & Hc & Ha & Hlt & Hlt' & _).
  rewrite (resize_spec _ _ _ _ Hcap Hlt'). split; [reflexivity|].
  rewrite Hn, Hc, Ha. cbn [snd].
  apply (view_intro _ o (mkPQ (length (arrs w)) z c)); cbn [objs arrs pq].
  - now apply list_lookup_insert_eq.
  - rewrite lookup_app_r by lia.
    now replace (length (arrs w) - length (arrs w))%nat with 0%nat by lia.
Qed.

(** ** Closure of the properties under sequencing *)

Lemma preserves_bind {A B} I (m : Meth A) (f : A -> Meth B) :
  preserves I m -> (forall x, preserves I (f x)) -> preserves I (bind m f).
Proof.
  intros Hm Hf this w HI. unfold bind.
  specialize (Hm this w HI).
  destruct (m this w) as [[x|e|] w']; simpl in *; auto.
  now apply Hf.
Qed.

Lemma preserves_try {A} I (m : Meth A) : preserves I m -> preserves I (try m).
Proof.
  intros Hm this w HI. unfold try. specialize (Hm this w HI).
  now destruct (m this w).
Qed.

Lemma det_bind {A B} (m : Meth A) (f : A -> Meth B) :
  det m -> (forall x, det (f x)) -> det (bind m f).
Proof.
  intros Hm Hf o1 w1 o2 w2 Hs. unfold bind.
  destruct (Hm o1 w1 o2 w2 Hs) as [Hr Hs'].
  destruct (m o1 w1) as [r1 w1'], (m o2 w2) as [r2 w2']; simpl in *.
  subst r2. destruct r1 as [x|e|]; simpl; [now apply Hf | auto | auto].
Qed.

Lemma det_try {A} (m : Meth A) : det m -> det (try m).
Proof.
  intros Hm o1 w1 o2 w2 Hs. unfold try.
  destruct (Hm o1 w1 o2 w2 Hs) as [Hr Hs'].
  destruct (m o1 w1), (m o2 w2); simpl in *. now subst.
Qed.

Lemma keeps_n_bind {A B} (m : Meth A) (f : A -> Meth B) :
  keeps_n m -> (forall x, keeps_n (f x)) -> keeps_n (bind m f).
Proof.
  intros Hm Hf this w. unfold bind. specialize (Hm this w).
  destruct (m this w) as [[x|e|] w']; simpl in *; auto.
  now rewrite Hf.
Qed.

Lemma terminates_bind {A B} (m : Meth A) (f : A -> Meth B) :
  terminates m -> (forall x, terminates (f x)) -> terminates (bind m f).
Proof.
  intros Hm Hf this w. unfold bind. specialize (Hm this w).
  destruct (m this w) as [[x|e|] w']; simpl in *;
    [apply Hf | discriminate | congruence].
Qed.

Lemma no_underflow_bind {A B} (m : Meth A) (f : A -> Meth B) :
  no_underflow m -> (forall x, no_underflow (f x)) -> no_underflow (bind m f).
Proof.
  intros Hm Hf this w. unfold bind. specialize (Hm this w).
  destruct (m this w) as [[x|e|] w']; simpl in *;
    [apply Hf | intros [= ->]; now apply Hm | discriminate].
Qed.

Lemma returns_only_bind {A B} (b : B) (m : Meth A) (f : A -> Meth B) :
  (forall x, returns_only b (f x)) -> returns_only b (bind m f).
Proof.
  intros Hf this w v. unfold bind.
  destruct (m this w) as [[x|e|] w']; simpl; try discriminate.
  apply Hf.
Qed.

Lemma returns_only_ret {A} (a : A) : returns_only a (ret (Key:=Key) a).
Proof. intros this w v [= <-]. reflexivity. Qed.

(** ** The methods are local *)

Ltac local_prim :=
  first
    [ assumption
    | match goal with H : _ |- local _ => solve [apply H] end
    | apply local_this_load | apply local_this_store | apply local_resize
    | apply local_get_n | apply local_set_n | apply local_get_comparator
    | apply local_this_length | apply local_ret | apply local_throw
    | apply local_out_of_fuel ].

Ltac local_tac :=
  repeat first
    [ local_prim
    | match goal with
      | |- local (if ?b then _ else _) => destruct b
      | |- local (match ?r with Ok _ => _ | Throw _ => _ | OutOfFuel => _ end)
          => destruct r
      end
    | apply local_try
    | apply local_bind; [|intros ?] ].

Lemma local_isEmpty : local (Key:=Key) isEmpty.
Proof. unfold isEmpty. local_tac. Qed.

Lemma local_min : local (Key:=Key) min.
Proof. unfold min. pose proof local_isEmpty. local_tac. Qed.

Lemma local_greater i j : local (Key:=Key) (greater i j).
Proof. unfold greater. local_tac. Qed.

Lemma local_exch i j : local (Key:=Key) (exch i j).
Proof. unfold exch. local_tac. Qed.

Lemma local_swim fuel : forall k, local (Key:=Key) (swim fuel k).
Proof.
  induction fuel as [|fuel IH]; intros k; simpl;
    pose proof (local_greater (k / 2) k);
    pose proof (local_exch k (k / 2));
    try pose proof (IH (k / 2)%Q); local_tac.
Qed.

Lemma local_sink fuel : forall k, local (Key:=Key) (sink fuel k).
Proof.
  induction fuel as [|fuel IH]; intros k; simpl; [local_tac|].
  apply local_bind; [local_prim|intros c].
  destruct (2 * k <=? c); [|local_prim].
  apply local_bind; [local_prim|intros c'].
  apply local_bind.
  { destruct (2 * k <? c'); [apply local_greater|local_prim]. }
  intros g. apply local_bind; [apply local_greater|intros g'].
  destruct (negb g'); [local_prim|].
  apply local_bind; [apply local_exch|intros _]. apply IH.
Qed.

Lemma local_insert fuel (x : Key) : local (insert fuel x).
Proof.
  unfold insert. pose proof (local_swim fuel). local_tac.
Qed.

Lemma local_delMin fuel : local (Key:=Key) (delMin fuel).
Proof.
  unfold delMin.
  pose proof local_isEmpty. pose proof (local_sink fuel).
  pose proof local_exch. local_tac.
Qed.

Lemma local_drain sfuel fuel : local (Key:=Key) (drain sfuel fuel).
Proof.
  pose proof local_isEmpty. pose proof (local_delMin sfuel).
  induction fuel as [|fuel IH]; simpl; local_tac.
Qed.

Lemma local_run_ops fuel (ops : list (@Op Key)) : local (run_ops fuel ops).
Proof.
  pose proof (local_delMin fuel). pose proof (local_insert fuel).
  induction ops as [|op ops IH]; simpl; [local_prim|].
  apply local_bind; [|intros _; exact IH].
  destruct op; simpl; local_tac.
Qed.

(** ** Local methods leave every other instance alone *)

Lemma the_obj_insert_cases w o x ars :
  the_obj (mkWorld (<[o := x]> (objs w)) ars) o = x \/
  the_obj (mkWorld (<[o := x]> (objs w)) ars) o = the_obj w o.
Proof.
  destruct (decide (o < length (objs w))%nat).
  - left. now apply the_obj_insert_eq.
  - right. apply the_obj_insert_ge. lia.
Qed.

Ltac obj_cases :=
  match goal with
  | |- context [the_obj (mkWorld (<[?o := ?x]> (objs ?w)) ?ars) ?o] =>
      destruct (the_obj_insert_cases w o x ars) as [-> | ->]
  end.

Lemma view_insert_ne w o o' x :
  o' <> o ->
  view (mkWorld (<[o' := x]> (objs w)) (arrs w)) o = view w o.
Proof.
  intros Hne. unfold view; simpl. now rewrite list_lookup_insert_ne.
Qed.

Lemma local_frame {A} (m : Meth A) :
  local m -> forall o V, preserves (apart o V) m.
Proof.
  induction 1 as [A x|A B m f _ IHm _ IHf|A e|A|A m _ IHm| |z| |q|q v| |c];
    intros o V.
  - intros this w HI; exact HI.
  - apply preserves_bind; auto.
  - intros this w HI; exact HI.
  - intros this w HI; exact HI.
  - apply preserves_try; auto.
  - intros this w HI; exact HI.
  - (* this.n = z *)
    intros this w (Hne & Hv & Hpq & Hlt). unfold set_n; simpl.
    unfold apart. rewrite (the_obj_insert_ne w o this) by assumption.
    split; [assumption|]. split; [now rewrite view_insert_ne|].
    obj_cases; simpl; auto.
  - intros this w HI; exact HI.
  - intros this w HI; exact HI.
  - (* this.pq[q] = v *)
    intros this w (Hne & Hv & Hpq & Hlt).
    unfold this_store, bind, get_pq, store; simpl.
    destruct V as [[z c] a].
    destruct (view_the _ _ _ _ _ Hv) as (_ & _ & _ & _ & _ & Ha).
    unfold apart. split; [|split; [|split]]; [assumption| | |].
    + pose proof Hv as (ob & Hob & Hn & Hc & Ha')%view_inv.
      rewrite <- Hn, <- Hc. apply (view_intro _ o ob); simpl; [exact Hob|].
      rewrite list_lookup_insert_ne; [exact Ha'|].
      now rewrite (the_obj_lookup _ _ _ Hob) in Hpq.
    + exact Hpq.
    + simpl. now rewrite length_insert.
  - intros this w HI; exact HI.
  - (* resize *)
    intros this w (Hne & Hv & Hpq & Hlt).
    destruct (array_length_ok c) as [len|] eqn:Hc.
    2:{ rewrite resize_throws by assumption. now unfold apart. }
    rewrite (resize_spec _ _ _ _ Hc Hlt). cbn [snd].
    destruct V as [[z cmp] a].
    pose proof Hv as (ob & Hob & Hn & Hcmp & Ha)%view_inv.
    assert (Hlto : (pq ob < length (arrs w))%nat)
      by eauto using lookup_lt_Some.
    rewrite (the_obj_lookup _ _ _ Hob) in Hpq.
    unfold apart. split; [|split; [|split]]; [assumption| | |].
    + rewrite <- Hn, <- Hcmp. apply (view_intro _ o ob); simpl.
      * now rewrite list_lookup_insert_ne.
      * now rewrite lookup_app_l.
    + rewrite (the_obj_insert_ne w o this) by assumption.
      rewrite (the_obj_lookup _ _ _ Hob).
      obj_cases; simpl; [lia | assumption].
    + simpl. rewrite length_app; simpl.
      obj_cases; simpl; lia.
Qed.

(** ** The outcome of a local method depends on the receiver's view only *)

Lemma det_reader {A} (m : Meth A) (g : Z * Comparator * JSArray -> A) :
  (forall o w V, view w o = Some V -> m o w = (Ok (g V), w)) -> det m.
Proof.
  intros Hm o1 w1 o2 w2 (V & H1 & H2).
  rewrite (Hm _ _ _ H1), (Hm _ _ _ H2). split; [reflexivity|].
  exists V; auto.
Qed.

Lemma local_det {A} (m : Meth A) : local m -> det m.
Proof.
  induction 1 as [A x|A B m f _ IHm _ IHf|A e|A|A m _ IHm| |z| |q|q v| |c].
  - intros o1 w1 o2 w2 Hs; split; [reflexivity|exact Hs].
  - apply det_bind; auto.
  - intros o1 w1 o2 w2 Hs; split; [reflexivity|exact Hs].
  - intros o1 w1 o2 w2 Hs; split; [reflexivity|exact Hs].
  - apply det_try; auto.
  - apply (det_reader _ (fun V => fst (fst V))).
    intros o w [[z c] a] (Hn & _)%view_the. unfold get_n. now rewrite Hn.
  - intros o1 w1 o2 w2 ([[z0 c] a] & H1 & H2). split; [reflexivity|].
    exists (z, c, a). split; now apply set_n_view with z0.
  - apply (det_reader _ (fun V => snd (fst V))).
    intros o w [[z c] a] (_ & Hc & _)%view_the.
    unfold get_comparator. now rewrite Hc.
  - apply (det_reader _ (fun V => arr_get (snd V) q)).
    intros o w [[z c] a] (_ & _ & Ha & _)%view_the.
    unfold this_load, bind, get_pq, load; simpl. now rewrite Ha.
  - intros o1 w1 o2 w2 ([[z c] a] & H1 & H2). split; [reflexivity|].
    exists (z, c, arr_set q v a). split; now apply this_store_view.
  - apply (det_reader _ (fun V => arr_length (snd V))).
    intros o w [[z c] a] (_ & _ & Ha & _)%view_the.
    unfold this_length. now rewrite Ha.
  - intros o1 w1 o2 w2 ([[z cmp] a] & H1 & H2).
    destruct (array_length_ok c) as [len|] eqn:Hc.
    + destruct (resize_view _ _ _ _ _ _ _ H1 Hc) as [-> Hv1].
      destruct (resize_view _ _ _ _ _ _ _ H2 Hc) as [-> Hv2].
      split; [reflexivity|]. eexists; split; eassumption.
    + rewrite !resize_throws by assumption. split; [reflexivity|].
      exists (z, cmp, a); auto.
Qed.

(** ** What [copy] builds *)

Lemma the_obj_last (os : list (@MinPQ Key)) x ars :
  the_obj (mkWorld (os ++ [x]) ars) (length os) = x.
Proof.
  unfold the_obj; cbn [objs]. rewrite lookup_app_r by lia.
  now replace (length os - length os)%nat with 0%nat by lia.
Qed.

Lemma insert_last {T} (l : list T) (x y : T) :
  <[length l := y]> (l ++ [x]) = l ++ [y].
Proof.
  rewrite insert_app_r_alt by lia.
  now replace (length l - length l)%nat with 0%nat by lia.
Qed.

Lemma the_obj_app w o x ars :
  (o < length (objs w))%nat ->
  the_obj (mkWorld (objs w ++ x) ars) o = the_obj w o.
Proof. intros Hlt. unfold the_obj; cbn [objs]. now rewrite lookup_app_l. Qed.

Lemma the_arr_app w r x obs :
  (r < length (arrs w))%nat ->
  the_arr (mkWorld obs (arrs w ++ x)) r = the_arr w r.
Proof. intros Hlt. unfold the_arr; cbn [arrs]. now rewrite lookup_app_l. Qed.

Lemma copy_spec w this z c a :
  view w this = Some (z, c, a) ->
  copy this w =
  (Ok (length (objs w)),
   mkWorld (objs w ++ [mkPQ (S (length (arrs w))) z c])
           (arrs w ++ [mkArray (replicate 1 None) []; mkArray (elems a) []])).
Proof.
  intros (Hn & Hc & Ha & Hlt & Hlt' & _)%view_the.
  unfold copy, bind at 1, get_comparator. rewrite Hc.
  unfold bind at 1, new_MinPQ, bind at 1, new_Array.
  change (array_length_ok (if Qeq_bool 0 0 then 1 else 0)%Q) with (Some 1%nat).
  cbn [objs arrs].
  unfold bind at 1, get_pq. rewrite the_obj_app by assumption.
  unfold bind at 1, spread. rewrite the_arr_app by assumption. rewrite Ha.
  cbn [objs arrs].
  unfold bind at 1, on, set_pq. cbn [objs arrs].
  rewrite the_obj_last, insert_last. cbn [n comparator].
  unfold bind at 1, get_n. rewrite the_obj_app by assumption. rewrite Hn.
  unfold bind, set_n, ret. cbn [objs arrs].
  rewrite the_obj_last, insert_last. cbn [pq comparator].
  rewrite <- app_assoc, length_app. cbn [length app].
  now rewrite Nat.add_1_r.
Qed.

Lemma copy_views w this z c a :
  view w this = Some (z, c, a) ->
  let b := length (objs w) in
  let w' := snd (copy this w) in
  view w' this = Some (z, c, a) /\
  view w' b = Some (z, c, mkArray (elems a) []) /\
  apart this (z, c, a) b w' /\
  apart b (z, c, mkArray (elems a) []) this w'.
Proof.
  intros Hv b w'. unfold w'. rewrite (copy_spec _ _ _ _ _ Hv). cbn [snd].
  pose proof Hv as (ob & Hob & Hn & Hc & Ha)%view_inv.
  assert (Hlt : (this < length (objs w))%nat) by eauto using lookup_lt_Some.
  assert (Hlt' : (pq ob < length (arrs w))%nat) by eauto using lookup_lt_Some.
  set (w1 := mkWorld _ _).
  assert (H1 : view w1 this = Some (z, c, a)).
  { rewrite <- Hn, <- Hc. apply (view_intro _ this ob); unfold w1; cbn [objs arrs].
    - now apply lookup_app_l_Some.
    - now apply lookup_app_l_Some. }
  assert (H2 : view w1 b = Some (z, c, mkArray (elems a) [])).
  { apply (view_intro _ b (mkPQ (S (length (arrs w))) z c));
      unfold w1, b; cbn [objs arrs pq].
    - rewrite lookup_app_r by lia.
      now replace (length (objs w) - length (objs w))%nat with 0%nat by lia.
    - rewrite lookup_app_r by lia.
      now replace (S (length (arrs w)) - length (arrs w))%nat with 1%nat by lia. }
  assert (Hthis : the_obj w1 this = ob).
  { unfold w1. rewrite the_obj_app by assumption. now apply the_obj_lookup. }
  assert (Hb : pq (the_obj w1 b) = S (length (arrs w))).
  { unfold w1, b. now rewrite the_obj_last. }
  assert (Hlen : length (arrs w1) = (length (arrs w) + 2)%nat).
  { unfold w1; cbn [arrs]. now rewrite length_app. }
  unfold apart. rewrite Hthis, Hb, Hlen. unfold b.
  repeat split; auto; lia.
Qed.

Lemma iterator_spec fuel w this z c a :
  view w this = Some (z, c, a) ->
  iterator fuel this w =
  drain fuel fuel (length (objs w)) (snd (copy this w)).
Proof.
  intros Hv. unfold iterator, bind, try.
  rewrite (copy_spec _ _ _ _ _ Hv). reflexivity.
Qed.

(** ** The count is only written by [insert] and [delMin] themselves *)

Lemma keeps_n_same {A} (m : Meth A) :
  (forall this w, objs (snd (m this w)) = objs w) -> keeps_n m.
Proof. intros H this w. unfold the_obj. now rewrite H. Qed.

Lemma keeps_n_this_load q : keeps_n (Key:=Key) (this_load q).
Proof. now apply keeps_n_same. Qed.

Lemma keeps_n_this_store q v : keeps_n (Key:=Key) (this_store q v).
Proof. now apply keeps_n_same. Qed.

Lemma keeps_n_greater i j : keeps_n (Key:=Key) (greater i j).
Proof. now apply keeps_n_same. Qed.

Lemma keeps_n_exch i j : keeps_n (Key:=Key) (exch i j).
Proof. now apply keeps_n_same. Qed.

Lemma keeps_n_set_pq r : keeps_n (Key:=Key) (set_pq r).
Proof.
  intros this w. unfold set_pq; cbn [snd].
  now obj_cases.
Qed.

Lemma keeps_n_resize_loop temp idx : keeps_n (Key:=Key) (resize_loop temp idx).
Proof.
  induction idx as [|i idx IH]; simpl; [now apply keeps_n_same|].
  apply keeps_n_bind; [apply keeps_n_this_load|intros v].
  apply keeps_n_bind; [now apply keeps_n_same|intros _; exact IH].
Qed.

Lemma keeps_n_resize c : keeps_n (Key:=Key) (resize c).
Proof.
  unfold resize. apply keeps_n_bind.
  { apply keeps_n_same. intros this w. unfold new_Array.
    now destruct (array_length_ok c). }
  intros temp. apply keeps_n_bind; [now apply keeps_n_same|intros z].
  apply keeps_n_bind; [apply keeps_n_resize_loop|intros _].
  apply keeps_n_set_pq.
Qed.

Lemma keeps_n_sink fuel : forall k, keeps_n (Key:=Key) (sink fuel k).
Proof.
  induction fuel as [|fuel IH]; intros k; simpl.
  - apply keeps_n_bind; [now apply keeps_n_same|intros c].
    destruct (2 * k <=? c); now apply keeps_n_same.
  - apply keeps_n_bind; [now apply keeps_n_same|intros c].
    destruct (2 * k <=? c); [|now apply keeps_n_same].
    apply keeps_n_bind; [now apply keeps_n_same|intros c'].
    apply keeps_n_bind.
    { destruct (2 * k <? c'); [apply keeps_n_greater|now apply keeps_n_same]. }
    intros g. apply keeps_n_bind; [apply keeps_n_greater|intros g'].
    destruct (negb g'); [now apply keeps_n_same|].
    apply keeps_n_bind; [apply keeps_n_exch|intros _; apply IH].
Qed.

Lemma the_obj_allocated w o : n (the_obj w o) <> 0 -> (o < length (objs w))%nat.
Proof.
  intros Hn. destruct (decide (o < length (objs w))%nat); [assumption|].
  exfalso. apply Hn. unfold the_obj.
  rewrite lookup_ge_None_2 by lia. reflexivity.
Qed.

(** A call of [delMin] on a non-empty heap decrements the count, whether
    it returns or throws. *)
Lemma delMin_n fuel this w :
  n (the_obj w this) <> 0 ->
  n (the_obj (snd (delMin fuel this w)) this) = n (the_obj w this) - 1.
Proof.
  intros Hn. pose proof (the_obj_allocated _ _ Hn) as Hlt.
  unfold delMin, bind at 1, isEmpty, bind at 1, get_n, ret.
  apply Z.eqb_neq in Hn. rewrite Hn.
  unfold bind at 1, this_load, bind at 1, get_pq, load.
  unfold bind at 1. unfold bind at 1, set_n.
  set (w1 := mkWorld _ _).
  assert (H1 : n (the_obj w1 this) = n (the_obj w this) - 1).
  { unfold w1. now rewrite the_obj_insert_eq. }
  rewrite <- H1.
  apply (keeps_n_bind (exch 1 (inject_Z (n (the_obj w this))))).
  { apply keeps_n_exch. }
  intros _. apply keeps_n_bind; [apply keeps_n_sink|intros _].
  apply keeps_n_bind; [now apply keeps_n_same|intros c].
  apply keeps_n_bind; [apply keeps_n_this_load|intros v].
  apply keeps_n_bind; [apply keeps_n_this_store|intros _].
  apply keeps_n_bind; [now apply keeps_n_same|intros c'].
  apply keeps_n_bind; [now apply keeps_n_same|intros len].
  apply keeps_n_bind; [|intros _; now apply keeps_n_same].
  destruct (_ && _); [apply keeps_n_resize|now apply keeps_n_same].
Qed.

(** ** Termination of the loops *)

Lemma terminates_ok {A} (m : Meth A) :
  (forall this w, exists x, fst (m this w) = Ok x) -> terminates m.
Proof. intros H this w. destruct (H this w) as [x ->]. discriminate. Qed.

Lemma greater_run i j this w :
  greater i j this w =
  (Ok (gt0 (comparator (the_obj w this)
              (arr_get (the_arr w (pq (the_obj w this))) i)
              (arr_get (the_arr w (pq (the_obj w this))) j))), w).
Proof. reflexivity. Qed.

Lemma exch_ok i j this w : fst (exch i j this w) = Ok tt.
Proof. reflexivity. Qed.

Lemma terminates_greater i j : terminates (Key:=Key) (greater i j).
Proof. apply terminates_ok. intros. now eexists. Qed.

Lemma terminates_exch i j : terminates (Key:=Key) (exch i j).
Proof. apply terminates_ok. intros. now eexists. Qed.

Lemma terminates_resize_loop temp idx :
  terminates (Key:=Key) (resize_loop temp idx).
Proof.
  induction idx as [|i idx IH]; simpl.
  - apply terminates_ok. intros. now eexists.
  - apply terminates_bind; [apply terminates_ok; intros; now eexists|intros v].
    apply terminates_bind; [apply terminates_ok; intros; now eexists|].
    intros _. exact IH.
Qed.

Lemma terminates_resize c : terminates (Key:=Key) (resize c).
Proof.
  unfold resize. apply terminates_bind.
  { intros this w. unfold new_Array.
    destruct (array_length_ok c); discriminate. }
  intros temp. apply terminates_bind;
    [apply terminates_ok; intros; now eexists|intros z].
  apply terminates_bind; [apply terminates_resize_loop|intros _].
  apply terminates_ok. intros. now eexists.
Qed.

Lemma inject_Z_succ (f : nat) :
  (inject_Z (Z.of_nat (S f)) == inject_Z (Z.of_nat f) + 1)%Q.
Proof. rewrite Nat2Z.inj_succ, <- Z.add_1_r, inject_Z_plus. reflexivity. Qed.

Lemma inject_Z_nat_nonneg (f : nat) : (0 <= inject_Z (Z.of_nat f))%Q.
Proof. change 0%Q with (inject_Z 0). rewrite <- Zle_Qle. lia. Qed.

(** [swim] halves [k] at every turn, so [fuel] turns are enough as soon as
    [k <= fuel + 1]; the comparator plays no part. *)
Lemma swim_terminates fuel : forall k,
  (k <= inject_Z (Z.of_nat fuel) + 1)%Q -> terminates (Key:=Key) (swim fuel k).
Proof.
  induction fuel as [|fuel IH]; intros k Hk; simpl.
  - assert (E : Qltb 1 k = false).
    { unfold Qltb. apply negb_false_iff, Qle_bool_iff.
      change (inject_Z (Z.of_nat 0)) with 0%Q in Hk. lra. }
    rewrite E. apply terminates_ok. intros. now eexists.
  - apply terminates_bind.
    { destruct (Qltb 1 k); [apply terminates_greater|].
      apply terminates_ok. intros. now eexists. }
    intros [|]; [|apply terminates_ok; intros; now eexists].
    apply terminates_bind; [apply terminates_exch|intros _].
    apply IH. rewrite inject_Z_succ in Hk.
    pose proof (inject_Z_nat_nonneg fuel).
    assert (Hh : (k / 2 == k * (1 # 2))%Q) by field.
    rewrite Hh. lra.
Qed.

(** [sink] at least doubles [k] at every turn and stops once [2k > n]. *)
Lemma sink_terminates fuel : forall k this w,
  1 <= k -> n (the_obj w this) - k <= Z.of_nat fuel ->
  fst (sink fuel k this w) <> OutOfFuel.
Proof.
  induction fuel as [|fuel IH]; intros k this w Hk Hn; simpl;
    unfold bind at 1, get_n at 1.
  - replace (2 * k <=? n (the_obj w this)) with false
      by (symmetry; apply Z.leb_gt; lia).
    discriminate.
  - destruct (2 * k <=? n (the_obj w this)) eqn:E; [|discriminate].
    unfold bind at 1, get_n at 1. unfold bind at 1.
    set (g := if 2 * k <? n (the_obj w this) then _ else _).
    assert (Hg : exists b, g this w = (Ok b, w)).
    { unfold g. destruct (2 * k <? n (the_obj w this)); now eexists. }
    destruct Hg as [b ->]. unfold bind at 1. rewrite greater_run.
    destruct (negb _); [discriminate|].
    unfold bind.
    pose proof (keeps_n_exch (inject_Z k)
                  (inject_Z (if b then 2 * k + 1 else 2 * k)) this w) as Hkeep.
    pose proof (exch_ok (inject_Z k)
                  (inject_Z (if b then 2 * k + 1 else 2 * k)) this w) as Hok.
    destruct (exch _ _ this w) as [r w2]. simpl in Hkeep, Hok. subst r.
    apply IH; [destruct b; lia|]. rewrite Hkeep. destruct b; lia.
Qed.

Lemma bind_terminates_at {A B} (m : Meth A) (f : A -> Meth B) this w :
  fst (m this w) <> OutOfFuel ->
  (forall x w', m this w = (Ok x, w') -> fst (f x this w') <> OutOfFuel) ->
  fst (bind m f this w) <> OutOfFuel.
Proof.
  intros Hm Hf. unfold bind.
  destruct (m this w) as [[x|e|] w']; simpl in *;
    [now apply Hf | discriminate | congruence].
Qed.

Lemma insert_terminates fuel (x : Key) this w :
  n (the_obj w this) <= Z.of_nat fuel ->
  fst (insert fuel x this w) <> OutOfFuel.
Proof.
  intros Hn. unfold insert, bind at 1, get_n at 1, bind at 1, this_length.
  apply bind_terminates_at.
  { destruct (_ =? _); [apply terminates_resize|discriminate]. }
  intros [] w' Hw'.
  assert (Hn' : n (the_obj w' this) = n (the_obj w this)).
  { destruct (_ =? _).
    - pose proof (keeps_n_resize
                    (2 * inject_Z (arr_length
                                     (the_arr w (pq (the_obj w this)))))
                    this w) as Hk.
      now rewrite Hw' in Hk.
    - now injection Hw' as <-. }
  unfold bind at 1, get_n at 1, bind at 1, set_n.
  unfold bind at 1, this_store, bind at 1, get_pq, store.
  unfold bind, get_n. cbn [objs arrs].
  apply swim_terminates. rewrite <- inject_Z_succ, <- Zle_Qle.
  obj_cases; simpl; lia.
Qed.

Lemma delMin_terminates fuel this w :
  n (the_obj w this) <= Z.of_nat fuel ->
  fst (delMin fuel this w) <> OutOfFuel.
Proof.
  intros Hn. unfold delMin, bind at 1, isEmpty, bind at 1, get_n, ret.
  destruct (n (the_obj w this) =? 0); [discriminate|].
  unfold bind at 1, this_load, bind at 1, get_pq, load.
  unfold bind at 1. unfold bind at 1, set_n.
  set (w1 := mkWorld _ _).
  assert (H1 : n (the_obj w1 this) <= Z.of_nat fuel).
  { unfold w1. obj_cases; simpl; lia. }
  apply bind_terminates_at; [apply terminates_exch|intros [] w2 Hw2].
  assert (H2 : n (the_obj w2 this) = n (the_obj w1 this)).
  { pose proof (keeps_n_exch 1 (inject_Z (n (the_obj w this))) this w1) as Hk.
    now rewrite Hw2 in Hk. }
  apply bind_terminates_at; [apply sink_terminates; lia|intros [] w3 _].
  apply terminates_bind; [apply terminates_ok; intros; now eexists|intros c].
  apply terminates_bind; [apply terminates_ok; intros; now eexists|intros v].
  apply terminates_bind; [apply terminates_ok; intros; now eexists|intros _].
  apply terminates_bind; [apply terminates_ok; intros; now eexists|intros c'].
  apply terminates_bind; [apply terminates_ok; intros; now eexists|intros l].
  apply terminates_bind; [|intros _; apply terminates_ok; intros; now eexists].
  destruct (_ && _); [apply terminates_resize|].
  apply terminates_ok; intros; now eexists.
Qed.

(** The traversal loop ends: every turn either throws or removes one key. *)
Lemma drain_terminates sfuel fuel : forall this w,
  0 <= n (the_obj w this) <= Z.of_nat fuel ->
  n (the_obj w this) <= Z.of_nat sfuel ->
  exists ys r, fst (drain sfuel fuel this w) = Ok (ys, r) /\ r <> OutOfFuel.
Proof.
  induction fuel as [|fuel IH]; intros this w Hn Hs; simpl;
    unfold bind at 1, isEmpty, bind at 1, get_n, ret.
  - replace (n (the_obj w this) =? 0) with true
      by (symmetry; apply Z.eqb_eq; lia).
    exists [YieldDone], (Ok tt). now split.
  - destruct (n (the_obj w this) =? 0) eqn:E.
    { exists [YieldDone], (Ok tt). now split. }
    apply Z.eqb_neq in E.
    pose proof (delMin_terminates sfuel this w Hs) as Ht.
    pose proof (delMin_n sfuel this w E) as Hd.
    unfold bind at 1, try.
    destruct (delMin sfuel this w) as [[v|e|] w2]; cbn [fst snd] in *.
    + destruct (IH this w2) as (ys & r & Hys & Hr); [lia|lia|].
      unfold bind. destruct (drain sfuel fuel this w2) as [[rest| |] w3];
        cbn [fst] in Hys; try discriminate.
      injection Hys as ->. exists (Yield v :: ys), r. now split.
    + exists [], (Throw e). now split.
    + congruence.
Qed.

(** ** Underflow *)

Lemma no_underflow_ok {A} (m : Meth A) :
  (forall this w, exists x, fst (m this w) = Ok x) -> no_underflow m.
Proof. intros H this w. destruct (H this w) as [x ->]. discriminate. Qed.

Lemma no_underflow_resize c : no_underflow (Key:=Key) (resize c).
Proof.
  intros this w. destruct (array_length_ok c) as [len|] eqn:Hc.
  - unfold resize. apply no_underflow_bind.
    { intros this' w'. unfold new_Array. rewrite Hc. discriminate. }
    intros temp. apply no_underflow_bind;
      [apply no_underflow_ok; intros; now eexists|intros z].
    apply no_underflow_bind;
      [|intros _; apply no_underflow_ok; intros; now eexists].
    generalize (map Z.of_nat (seq 1 (Z.to_nat z))). intros idx.
    induction idx as [|i idx IH]; simpl.
    + apply no_underflow_ok; intros; now eexists.
    + apply no_underflow_bind;
        [apply no_underflow_ok; intros; now eexists|intros v].
      apply no_underflow_bind;
        [apply no_underflow_ok; intros; now eexists|intros _; exact IH].
  - rewrite resize_throws by assumption. discriminate.
Qed.

Lemma no_underflow_sink fuel : forall k, no_underflow (Key:=Key) (sink fuel k).
Proof.
  induction fuel as [|fuel IH]; intros k; simpl.
  - apply no_underflow_bind;
      [apply no_underflow_ok; intros; now eexists|intros c].
    destruct (2 * k <=? c); intros this w; discriminate.
  - apply no_underflow_bind;
      [apply no_underflow_ok; intros; now eexists|intros c].
    destruct (2 * k <=? c); [|intros this w; discriminate].
    apply no_underflow_bind;
      [apply no_underflow_ok; intros; now eexists|intros c'].
    apply no_underflow_bind.
    { destruct (2 * k <? c'); apply no_underflow_ok; intros; now eexists. }
    intros g. apply no_underflow_bind;
      [apply no_underflow_ok; intros; now eexists|intros g'].
    destruct (negb g'); [intros this w; discriminate|].
    apply no_underflow_bind;
      [apply no_underflow_ok; intros; now eexists|intros _; apply IH].
Qed.

Lemma delMin_no_underflow fuel this w :
  n (the_obj w this) <> 0 ->
  fst (delMin fuel this w) <> Throw Underflow.
Proof.
  intros Hn%Z.eqb_neq.
  unfold delMin, bind at 1, isEmpty, bind at 1, get_n, ret. rewrite Hn.
  unfold bind at 1, this_load, bind at 1, get_pq, load.
  unfold bind at 1. unfold bind at 1, set_n.
  apply no_underflow_bind;
    [apply no_underflow_ok; intros; now eexists|intros _].
  apply no_underflow_bind; [apply no_underflow_sink|intros _].
  apply no_underflow_bind;
    [apply no_underflow_ok; intros; now eexists|intros c].
  apply no_underflow_bind;
    [apply no_underflow_ok; intros; now eexists|intros v].
  apply no_underflow_bind;
    [apply no_underflow_ok; intros; now eexists|intros _].
  apply no_underflow_bind;
    [apply no_underflow_ok; intros; now eexists|intros c'].
  apply no_underflow_bind;
    [apply no_underflow_ok; intros; now eexists|intros l].
  apply no_underflow_bind;
    [|intros _; apply no_underflow_ok; intros; now eexists].
  destruct (_ && _); [apply no_underflow_resize|].
  apply no_underflow_ok; intros; now eexists.
Qed.

(** Whatever [delMin] returns is the root it read first. *)
Lemma delMin_returns_root fuel this w v :
  n (the_obj w this) <> 0 ->
  fst (delMin fuel this w) = Ok v ->
  v = arr_get (the_arr w (pq (the_obj w this))) 1.
Proof.
  intros Hn%Z.eqb_neq.
  unfold delMin, bind at 1, isEmpty, bind at 1, get_n, ret. rewrite Hn.
  unfold bind at 1, this_load, bind at 1, get_pq, load.
  unfold bind at 1. unfold bind at 1, set_n.
  clear Hn. revert v.
  set (w1 := mkWorld _ _). set (root := arr_get _ _).
  set (c0 := n (the_obj w this)). clearbody w1 root c0.
  intros v. revert this w1 v. fold (returns_only (Key:=Key) root).
  repeat (apply returns_only_bind; intros ?).
  apply returns_only_ret.
Qed.

Lemma min_nonempty this w :
  n (the_obj w this) <> 0 ->
  min this w = (Ok (arr_get (the_arr w (pq (the_obj w this))) 1), w).
Proof.
  intros Hn%Z.eqb_neq. unfold min, bind, isEmpty, bind, get_n, ret.
  now rewrite Hn.
Qed.

(** ** The halving branch of [delMin] *)

(** [n == (length - 1) / 4] forces [length = 4n + 1], and then [length / 2]
    is not an integer: [new Array] rejects it. *)
Lemma halving_throws (c len : Z) this w :
  Qeq_bool (inject_Z c) ((inject_Z len - 1) / 4) = true ->
  resize (inject_Z len / 2) this w = (Throw RangeError, w).
Proof.
  intros Hq%Qeq_bool_eq. apply resize_throws.
  assert (Hlen : len = 4 * c + 1).
  { assert (H4 : (inject_Z len == inject_Z (4 * c + 1))%Q).
    { rewrite inject_Z_plus, inject_Z_mult, Hq.
      change (inject_Z 4) with 4%Q. change (inject_Z 1) with 1%Q. field. }
    apply inject_Z_injective. exact H4. }
  unfold array_length_ok.
  pose proof (Qred_correct (inject_Z len / 2)) as Hr.
  destruct (Qred (inject_Z len / 2)) as [m d]; cbn [Qnum Qden].
  destruct (Pos.eqb_spec d 1) as [->|]; [|reflexivity].
  exfalso. unfold Qeq in Hr. cbn in Hr. lia.
Qed.

(** ** What [swim] does at an odd position *)

(** Half of an odd number is not an array index. *)
Lemma half_odd_not_index (k : Z) :
  Z.odd k = true -> array_index (inject_Z k / 2) = None.
Proof.
  intros [m ->]%Z.odd_spec. unfold array_index.
  pose proof (Qred_correct (inject_Z (2 * m + 1) / 2)) as Hr.
  destruct (Qred (inject_Z (2 * m + 1) / 2)) as [p d]; cbn [Qnum Qden].
  destruct (Pos.eqb_spec d 1) as [->|]; [|reflexivity].
  exfalso. unfold Qeq in Hr. cbn in Hr. lia.
Qed.

(** With no named property on the backing array and a comparator that does
    not rank [undefined] above a key, [swim] leaves a key that sits at an odd
    position where it is: it looks for the parent at [k/2]. *)
Lemma swim_odd_stays fuel (k : Z) this w :
  Z.odd k = true ->
  props (the_arr w (pq (the_obj w this))) = [] ->
  (forall y, gt0 (comparator (the_obj w this) None y) = false) ->
  swim fuel (inject_Z k) this w = (Ok tt, w).
Proof.
  intros Hk Hp Hc.
  assert (Hg : greater (inject_Z k / 2) (inject_Z k) this w = (Ok false, w)).
  { rewrite greater_run. unfold arr_get at 1.
    rewrite (half_odd_not_index k Hk), Hp. cbn [prop_get]. now rewrite Hc. }
  destruct fuel; simpl; unfold bind;
    (destruct (Qltb 1 (inject_Z k)); [now rewrite Hg|reflexivity]).
Qed.

(** ** The claims that hold for every heap *)

(** C4: on an empty heap [min] and [delMin] throw Underflow and leave the
    store (objects and arrays) exactly as it was; on a heap with a positive
    count neither of them throws Underflow. *)
Theorem underflow_iff_empty (fuel : nat) this w :
  (n (the_obj w this) = 0 ->
   min this w = (Throw Underflow, w) /\
   delMin fuel this w = (Throw Underflow, w)) /\
  (0 < n (the_obj w this) ->
   fst (min this w) <> Throw Underflow /\
   fst (delMin fuel this w) <> Throw Underflow).
Proof.
  split.
  - intros Hn. unfold min, delMin, bind, isEmpty, bind, get_n, ret.
    rewrite Hn. now split.
  - intros Hn. split.
    + rewrite min_nonempty by lia. discriminate.
    + apply delMin_no_underflow. lia.
Qed.

(** C9: whatever the comparator stored in the heap, [insert], [delMin] and
    [min] end as soon as the fuel covers the count, and so does a whole
    traversal of a heap with a non-negative count: the loops of [swim],
    [sink] and of the generator reach their exit. *)
Theorem operations_terminate (fuel : nat) (x : Key) this w :
  n (the_obj w this) <= Z.of_nat fuel ->
  fst (insert fuel x this w) <> OutOfFuel /\
  fst (delMin fuel this w) <> OutOfFuel /\
  fst (min this w) <> OutOfFuel /\
  (wf w this -> 0 <= n (the_obj w this) ->
   exists ys r, fst (iterator fuel this w) = Ok (ys, r) /\ r <> OutOfFuel).
Proof.
  intros Hn. split; [now apply insert_terminates|].
  split; [now apply delMin_terminates|]. split.
  - unfold min, bind, isEmpty, bind, get_n, ret.
    destruct (_ =? _); discriminate.
  - intros [[[z c] a] Hv] H0.
    rewrite (iterator_spec _ _ _ _ _ _ Hv).
    destruct (copy_views _ _ _ _ _ Hv) as (_ & Hb & _).
    destruct (view_the _ _ _ _ _ Hb) as (Hnb & _).
    destruct (view_the _ _ _ _ _ Hv) as (Hna & _).
    apply drain_terminates; rewrite Hnb, <- Hna; lia.
Qed.

(** C7: [copy] returns a new instance [b] with the same count, the same
    comparator and a backing array of its own holding the same entries at
    the same positions; afterwards no sequence of [insert] and [delMin]
    calls on [a] changes what [b] holds, and none on [b] changes [a]. *)
Theorem copy_is_independent (fuel : nat) w (a : oref) z c arr :
  view w a = Some (z, c, arr) ->
  exists b w',
    copy a w = (Ok b, w') /\
    b <> a /\
    pq (the_obj w' b) <> pq (the_obj w' a) /\
    view w' a = Some (z, c, arr) /\
    view w' b = Some (z, c, mkArray (elems arr) []) /\
    (forall ops, view (snd (run_ops fuel ops a w')) b = view w' b) /\
    (forall ops, view (snd (run_ops fuel ops b w')) a = view w' a).
Proof.
  intros Hv.
  destruct (copy_views _ _ _ _ _ Hv) as (Ha & Hb & Hab & Hba).
  exists (length (objs w)), (snd (copy a w)).
  split; [now rewrite (copy_spec _ _ _ _ _ Hv)|].
  split; [apply Hab|]. split; [apply Hab|].
  split; [exact Ha|]. split; [exact Hb|]. split.
  - intros ops. rewrite Hb.
    apply (local_frame _ (local_run_ops fuel ops) _ _ _ _ Hba).
  - intros ops. rewrite Ha.
    apply (local_frame _ (local_run_ops fuel ops) _ _ _ _ Hab).
Qed.

(** C8: a traversal leaves the heap it is called on as it was: the count,
    the comparator and the backing array are unchanged, so [size] and [min]
    answer as before, and a second traversal yields the same items and ends
    the same way. *)
Theorem traversal_leaves_heap_intact (fuel : nat) this w :
  wf w this ->
  let w' := snd (iterator fuel this w) in
  view w' this = view w this /\
  fst (size this w') = fst (size this w) /\
  fst (min this w') = fst (min this w) /\
  fst (iterator fuel this w') = fst (iterator fuel this w).
Proof.
  intros [[[z c] a] Hv] w'.
  assert (Hv' : view w' this = Some (z, c, a)).
  { unfold w'. rewrite (iterator_spec _ _ _ _ _ _ Hv).
    destruct (copy_views _ _ _ _ _ Hv) as (_ & _ & Hab & _).
    apply (local_frame _ (local_drain fuel fuel) _ _ _ _ Hab). }
  assert (Hs : same_view this w' this w) by (exists (z, c, a); auto).
  split; [now rewrite Hv', Hv|].
  split; [apply (local_det _ local_get_n _ _ _ _ Hs)|].
  split; [apply (local_det _ local_min _ _ _ _ Hs)|].
  rewrite (iterator_spec _ _ _ _ _ _ Hv), (iterator_spec _ _ _ _ _ _ Hv').
  apply (local_det _ (local_drain fuel fuel)).
  destruct (copy_views _ _ _ _ _ Hv) as (_ & Hb & _).
  destruct (copy_views _ _ _ _ _ Hv') as (_ & Hb' & _).
  eexists; split; eassumption.
Qed.

End Facts.

(** * The claims on concrete heaps *)

(** The demonstration script itself: [insert(5); insert(2); insert(3)] and
    one traversal. *)
Example script_run :
  fst ((q <- build 10 [5; 2; 3] ;; on q (iterator 10)) 0%nat empty_world) =
  Ok ([Yield (Some 2); Yield (Some 3); Yield (Some 5); YieldDone], Ok tt).
Proof. vm_compute; reflexivity. Qed.

(** C1 (the code breaks it): after [insert(5); insert(3); insert(2)] the
    root 3 has the child 2 at position 3, so the heap property fails;
    [swim(3)] compares position 1.5, which is empty, and stops. *)
Theorem insert_breaks_heap_order :
  slots demo 0%nat = [None; Some 3; Some 5; Some 2] /\
  n (the_obj demo 0%nat) = 3 /\
  fst (isMinHeap 10 1 0%nat demo) = Ok false /\
  ~ heap_ordered demo 0%nat.
Proof.
  split; [vm_compute; reflexivity|]. split; [vm_compute; reflexivity|].
  split; [vm_compute; reflexivity|].
  intros H. destruct (H 1) as [_ H3]; [vm_compute; split; discriminate|].
  assert (Hc : 2 * 1 + 1 <= n (the_obj demo 0%nat))
    by (vm_compute; discriminate).
  specialize (H3 Hc). vm_compute in H3. apply H3. reflexivity.
Qed.

(** C2 (the code breaks it): the keys 5, 3, 2 come back as 3, 2, 5. *)
Theorem extraction_not_sorted :
  fst (extract_all 10 3 0%nat demo) = Ok [Some 3; Some 2; Some 5] /\
  fst (delMin 10 0%nat (snd (extract_all 10 3 0%nat demo))) = Throw Underflow.
Proof. split; vm_compute; reflexivity. Qed.

(** C3 (the code breaks it): the traversal of the three-key heap yields
    four items, [{ done: true }] last, and the values come as 3, 2, 5. *)
Theorem traversal_not_sorted :
  n (the_obj demo 0%nat) = 3 /\
  fst (iterator 10 0%nat demo) =
  Ok ([Yield (Some 3); Yield (Some 2); Yield (Some 5); YieldDone], Ok tt).
Proof. split; vm_compute; reflexivity. Qed.

(** C5 (the code breaks it): with one key left in an array of length 8 the
    capacity stays 8; and where the test [n == (length - 1) / 4] does hold
    (length 5, one key left) [delMin] throws a RangeError. *)
Theorem capacity_never_halved :
  arr_length (the_arr four (pq (the_obj four 0%nat))) = 8 /\
  (let r := extract_all 10 3 0%nat four in
   fst r = Ok [Some 1; Some 2; Some 3] /\
   n (the_obj (snd r) 0%nat) = 1 /\
   arr_length (the_arr (snd r) (pq (the_obj (snd r) 0%nat))) = 8) /\
  (arr_length (the_arr five (pq (the_obj five 0%nat))) = 5 /\
   n (the_obj five 0%nat) = 2 /\
   fst (delMin 10 0%nat five) = Throw RangeError).
Proof. repeat split; vm_compute; reflexivity. Qed.

(** C6 (the code breaks it): after [delMin] on the heap holding 3 and 5 the
    vacated position 2 holds the key 5, and it still does once 5 has been
    extracted as well. *)
Theorem vacated_slot_keeps_a_key :
  slots pair 0%nat = [None; Some 3; Some 5; None] /\
  (let r := delMin 10 0%nat pair in
   fst r = Ok (Some 3) /\
   n (the_obj (snd r) 0%nat) = 1 /\
   arr_get (the_arr (snd r) (pq (the_obj (snd r) 0%nat))) 2 = Some 5) /\
  (let r := extract_all 10 2 0%nat pair in
   fst r = Ok [Some 3; Some 5] /\
   n (the_obj (snd r) 0%nat) = 0 /\
   arr_get (the_arr (snd r) (pq (the_obj (snd r) 0%nat))) 2 = Some 5).
Proof. repeat split; vm_compute; reflexivity. Qed.

(** C10 (the code breaks it): on the heap built by
    [new MinPQ(cmp, 5); insert(4); insert(6)] the call [min()] returns 4,
    while [delMin()] on that same state returns no value: whatever the
    fuel, it ends in the RangeError of the halving [resize], after it has
    taken the root 4 out of the heap. *)
Theorem delMin_throws_where_min_returns :
  slots five 0%nat = [None; Some 4; Some 6; None; None] /\
  n (the_obj five 0%nat) = 2 /\
  min 0%nat five = (Ok (Some 4), five) /\
  (forall fuel, fst (delMin fuel 0%nat five) = Throw RangeError) /\
  (forall fuel,
     let w' := snd (delMin fuel 0%nat five) in
     n (the_obj w' 0%nat) = 1 /\
     slots w' 0%nat = [None; Some 6; Some 6; None; None]).
Proof.
  split; [vm_compute; reflexivity|]. split; [vm_compute; reflexivity|].
  split; [vm_compute; reflexivity|].
  split; intros [|fuel]; try split; vm_compute; reflexivity.
Qed.


(** ** The general theorems at the demonstration heap *)

Lemma underflow_iff_empty_witness :
  (n (the_obj fresh 0%nat) = 0 /\
   min 0%nat fresh = (Throw Underflow, fresh) /\
   delMin 10 0%nat fresh = (Throw Underflow, fresh)) /\
  (0 < n (the_obj demo 0%nat) /\
   fst (min 0%nat demo) <> Throw Underflow /\
   fst (delMin 10 0%nat demo) <> Throw Underflow).
Proof.
  split.
  - split; [vm_compute; reflexivity|].
    apply (proj1 (underflow_iff_empty 10 0%nat fresh)). vm_compute; reflexivity.
  - split; [vm_compute; reflexivity|].
    apply (proj2 (underflow_iff_empty 10 0%nat demo)). vm_compute; reflexivity.
Defined.

Lemma operations_terminate_witness :
  n (the_obj demo 0%nat) <= Z.of_nat 10 /\
  wf demo 0%nat /\
  0 <= n (the_obj demo 0%nat) /\
  fst (insert 10 7 0%nat demo) <> OutOfFuel /\
  fst (delMin 10 0%nat demo) <> OutOfFuel /\
  fst (min 0%nat demo) <> OutOfFuel /\
  exists ys r, fst (iterator 10 0%nat demo) = Ok (ys, r) /\ r <> OutOfFuel.
Proof.
  assert (H1 : n (the_obj demo 0%nat) <= Z.of_nat 10)
    by (vm_compute; discriminate).
  assert (H2 : wf demo 0%nat) by (eexists; vm_compute; reflexivity).
  assert (H3 : 0 <= n (the_obj demo 0%nat)) by (vm_compute; discriminate).
  split; [exact H1|]. split; [exact H2|]. split; [exact H3|].
  destruct (operations_terminate 10 7 0%nat demo H1) as (Hi & Hd & Hm & Ht).
  split; [exact Hi|]. split; [exact Hd|]. split; [exact Hm|].
  exact (Ht H2 H3).
Defined.

Lemma copy_is_independent_witness :
  view demo 0%nat =
    Some (3, num_cmp, mkArray [None; Some 3; Some 5; Some 2] []) /\
  exists b w',
    copy 0%nat demo = (Ok b, w') /\
    b <> 0%nat /\
    pq (the_obj w' b) <> pq (the_obj w' 0%nat) /\
    view w' 0%nat =
      Some (3, num_cmp, mkArray [None; Some 3; Some 5; Some 2] []) /\
    view w' b =
      Some (3, num_cmp, mkArray [None; Some 3; Some 5; Some 2] []) /\
    (forall ops, view (snd (run_ops 10 ops 0%nat w')) b = view w' b) /\
    (forall ops, view (snd (run_ops 10 ops b w')) 0%nat = view w' 0%nat).
Proof.
  split; [vm_compute; reflexivity|].
  apply (copy_is_independent 10 demo 0%nat 3 num_cmp
           (mkArray [None; Some 3; Some 5; Some 2] [])).
  vm_compute; reflexivity.
Defined.

Lemma traversal_leaves_heap_intact_witness :
  wf demo 0%nat /\
  (let w' := snd (iterator 10 0%nat demo) in
   view w' 0%nat = view demo 0%nat /\
   fst (size 0%nat w') = fst (size 0%nat demo) /\
   fst (min 0%nat w') = fst (min 0%nat demo) /\
   fst (iterator 10 0%nat w') = fst (iterator 10 0%nat demo)).
Proof.
  assert (H : wf demo 0%nat) by (eexists; vm_compute; reflexivity).
  split; [exact H|].
  apply (traversal_leaves_heap_intact 10 0%nat demo H).
Defined.

(** * Further properties of the class *)

Section Arrays.

Context {Key : Type}.

Implicit Types (a : @JSArray Key) (l : list (@value Key)) (v : @value Key).

(** ** Integer positions of a JavaScript array *)

Lemma Qred_inject_Z (i : Z) : Qred (inject_Z i) = inject_Z i.
Proof.
  pose proof (Qred_correct (inject_Z i)) as Hr.
  pose proof (gcd_Qred (inject_Z i)) as Hg.
  destruct (Qred (inject_Z i)) as [m d]. unfold Qeq in Hr. cbn in Hr, Hg.
  assert (Hd : Z.pos d = 1).
  { replace m with (Z.pos d * i) in Hg by lia.
    rewrite Z.gcd_comm, Z.gcd_mul_diag_l in Hg by lia. exact Hg. }
  injection Hd as ->. unfold inject_Z. f_equal. lia.
Qed.

Lemma array_index_inject_Z (i : Z) :
  0 <= i < 2 ^ 32 - 1 -> array_index (inject_Z i) = Some (Z.to_nat i).
Proof.
  intros Hi. unfold array_index. rewrite Qred_inject_Z. cbn [Qnum Qden inject_Z].
  rewrite Pos.eqb_refl.
  replace (0 <=? i) with true by (symmetry; apply Z.leb_le; lia).
  replace (i <? 2 ^ 32 - 1) with true by (symmetry; apply Z.ltb_lt; lia).
  reflexivity.
Qed.

Lemma array_index_sound (q : Q) (i : nat) :
  array_index q = Some i -> (q == inject_Z (Z.of_nat i))%Q.
Proof.
  unfold array_index. pose proof (Qred_correct q) as Hr.
  destruct (Qred q) as [m d]; cbn [Qnum Qden].
  destruct (Pos.eqb_spec d 1) as [->|]; [|discriminate].
  destruct (Z.leb_spec 0 m); [|discriminate].
  destruct (m <? 2 ^ 32 - 1); [|discriminate].
  intros [= <-]. rewrite <- Hr. rewrite Z2Nat.id by assumption. reflexivity.
Qed.

Lemma arr_get_index a (i : Z) :
  0 <= i < 2 ^ 32 - 1 -> arr_get a (inject_Z i) = at_ (elems a) i.
Proof. intros Hi. unfold arr_get, at_. now rewrite array_index_inject_Z. Qed.

Lemma arr_set_index a (i : Z) v :
  0 <= i < arr_length a -> arr_length a < 2 ^ 32 ->
  arr_set (inject_Z i) v a = mkArray (<[Z.to_nat i := v]> (elems a)) (props a).
Proof.
  unfold arr_length. intros Hi Hl. unfold arr_set.
  rewrite array_index_inject_Z by lia.
  replace (Z.to_nat i <? length (elems a))%nat with true
    by (symmetry; apply Nat.ltb_lt; lia).
  reflexivity.
Qed.

(** A write below the length, or to a key that is not an index, keeps the
    length. *)
Lemma arr_set_length (q : Q) v a :
  (q <= inject_Z (arr_length a - 1))%Q ->
  arr_length (arr_set q v a) = arr_length a.
Proof.
  intros Hq. unfold arr_set.
  destruct (array_index q) as [i|] eqn:Hi; [|reflexivity].
  apply array_index_sound in Hi. rewrite Hi in Hq.
  rewrite <- Zle_Qle in Hq. unfold arr_length in *.
  replace (i <? length (elems a))%nat with true
    by (symmetry; apply Nat.ltb_lt; lia).
  unfold arr_length; cbn [elems]. now rewrite length_insert.
Qed.

Lemma at_insert l (i j : Z) v :
  0 <= i -> 0 <= j -> (Z.to_nat i < length l)%nat ->
  at_ (<[Z.to_nat i := v]> l) j = if i =? j then v else at_ l j.
Proof.
  intros Hi Hj Hlt. unfold at_. destruct (Z.eqb_spec i j) as [->|Hne].
  - now rewrite list_lookup_insert_eq.
  - rewrite list_lookup_insert_ne by lia. reflexivity.
Qed.

End Arrays.

Section Runs.

Context {Key : Type}.

Implicit Types (w : @World Key) (o this : oref) (a : @JSArray Key).

(** ** Running the accesses on an explicit backing array *)

Lemma the_arr_with_arr w this a :
  (pq (the_obj w this) < length (arrs w))%nat ->
  the_arr (with_arr w this a) (pq (the_obj w this)) = a.
Proof.
  intros Hpq. unfold the_arr, with_arr; cbn [arrs].
  now rewrite list_lookup_insert_eq.
Qed.

Lemma with_arr_twice w this a1 a2 :
  with_arr (with_arr w this a1) this a2 = with_arr w this a2.
Proof.
  unfold with_arr at 1 3. cbn [objs arrs].
  change (the_obj (with_arr w this a1) this) with (the_obj w this).
  unfold with_arr; cbn [arrs]. now rewrite list_insert_insert_eq.
Qed.

Lemma with_arr_id w this z c a :
  view w this = Some (z, c, a) -> with_arr w this a = w.
Proof.
  intros (_ & _ & _ & _ & _ & Ha)%view_the. unfold with_arr.
  rewrite list_insert_id by assumption. apply world_eta.
Qed.

Lemma view_with_arr w this z c a a' :
  view w this = Some (z, c, a) ->
  view (with_arr w this a') this = Some (z, c, a').
Proof.
  intros (ob & Hob & Hn & Hc & Ha)%view_inv.
  unfold with_arr. rewrite (the_obj_lookup _ _ _ Hob), <- Hn, <- Hc.
  apply (view_intro _ this ob); cbn [objs arrs]; [exact Hob|].
  apply list_lookup_insert_eq. eauto using lookup_lt_Some.
Qed.

Lemma this_load_with w this a q :
  (pq (the_obj w this) < length (arrs w))%nat ->
  this_load q this (with_arr w this a) = (Ok (arr_get a q), with_arr w this a).
Proof.
  intros Hpq. unfold this_load, bind, get_pq, load.
  change (the_obj (with_arr w this a) this) with (the_obj w this).
  now rewrite the_arr_with_arr.
Qed.

Lemma this_store_with w this a q v :
  (pq (the_obj w this) < length (arrs w))%nat ->
  this_store q v this (with_arr w this a) =
  (Ok tt, with_arr w this (arr_set q v a)).
Proof.
  intros Hpq. unfold this_store, bind, get_pq, store.
  change (the_obj (with_arr w this a) this) with (the_obj w this).
  rewrite the_arr_with_arr by assumption.
  change (mkWorld (objs (with_arr w this a))
            (<[pq (the_obj w this) := arr_set q v a]>
               (arrs (with_arr w this a))))
    with (with_arr (with_arr w this a) this (arr_set q v a)).
  now rewrite with_arr_twice.
Qed.

Lemma this_length_with w this a :
  (pq (the_obj w this) < length (arrs w))%nat ->
  this_length this (with_arr w this a) = (Ok (arr_length a), with_arr w this a).
Proof.
  intros Hpq. unfold this_length.
  change (the_obj (with_arr w this a) this) with (the_obj w this).
  now rewrite the_arr_with_arr.
Qed.

Lemma greater_with w this a i j :
  (pq (the_obj w this) < length (arrs w))%nat ->
  greater i j this (with_arr w this a) =
  (Ok (gt0 (comparator (the_obj w this) (arr_get a i) (arr_get a j))),
   with_arr w this a).
Proof.
  intros Hpq. rewrite greater_run.
  change (the_obj (with_arr w this a) this) with (the_obj w this).
  now rewrite the_arr_with_arr.
Qed.

Lemma exch_with w this a i j :
  (pq (the_obj w this) < length (arrs w))%nat ->
  exch i j this (with_arr w this a) =
  (Ok tt,
   with_arr w this (arr_set j (arr_get a i) (arr_set i (arr_get a j) a))).
Proof.
  intros Hpq. unfold exch, bind.
  rewrite !this_load_with by assumption.
  rewrite this_store_with by assumption.
  now rewrite this_store_with by assumption.
Qed.

(** ** [swim] never changes the length of the backing array *)

Lemma swim_length w this fuel : forall (k : Q) a,
  (pq (the_obj w this) < length (arrs w))%nat ->
  (k <= inject_Z (arr_length a - 1))%Q ->
  exists r a',
    swim fuel k this (with_arr w this a) = (r, with_arr w this a') /\
    arr_length a' = arr_length a /\
    (r = Ok tt \/ r = OutOfFuel).
Proof.
  induction fuel as [|fuel IH]; intros k a Hpq Hk; simpl; unfold bind at 1.
  - destruct (Qltb 1 k).
    + rewrite greater_with by assumption.
      destruct (gt0 _); [exists OutOfFuel, a|exists (Ok tt), a]; auto.
    + exists (Ok tt), a. auto.
  - destruct (Qltb 1 k) eqn:E.
    + rewrite greater_with by assumption.
      destruct (gt0 _); [|exists (Ok tt), a; auto].
      unfold bind. rewrite exch_with by assumption.
      assert (Hh : (k / 2 <= k)%Q).
      { unfold Qltb in E. apply negb_true_iff in E.
        assert (Hh : (k / 2 == k * (1 # 2))%Q) by field.
        rewrite Hh.
        destruct (Qlt_le_dec 1 k) as [Hlt|Hle]; [lra|].
        apply Qle_bool_iff in Hle. congruence. }
      set (a1 := arr_set (k / 2) _ (arr_set k _ a)).
      assert (Hl1 : arr_length a1 = arr_length a).
      { unfold a1. rewrite !arr_set_length; try reflexivity;
          rewrite ?arr_set_length by assumption; lra. }
      destruct (IH (k / 2)%Q a1 Hpq) as (r & a' & -> & Hl & Hr).
      { rewrite Hl1. lra. }
      exists r, a'. rewrite Hl, Hl1. auto.
    + exists (Ok tt), a. auto.
Qed.

End Runs.

Section Order.

Context {Key : Type}.

Implicit Types (w : @World Key) (o this : oref) (a : @JSArray Key)
  (l : list (@value Key)) (cmp : @Comparator Key).

(** ** Exchanging two positions of a list of slots *)

Lemma at_lookup l (p : Z) :
  (Z.to_nat p < length l)%nat -> l !! Z.to_nat p = Some (at_ l p).
Proof.
  intros Hlt. unfold at_.
  destruct (lookup_lt_is_Some_2 l (Z.to_nat p) Hlt) as [x Hx].
  unfold value in *. now rewrite Hx.
Qed.

Lemma swap_length l k j : length (swap l k j) = length l.
Proof. unfold swap. now rewrite !length_insert. Qed.

Lemma at_swap l (k j p : Z) :
  0 <= k -> 0 <= j -> 0 <= p ->
  (Z.to_nat k < length l)%nat -> (Z.to_nat j < length l)%nat ->
  at_ (swap l k j) p =
  if p =? j then at_ l k else if p =? k then at_ l j else at_ l p.
Proof.
  intros Hk Hj Hp Hlk Hlj. unfold swap.
  rewrite at_insert by (rewrite ?length_insert; lia).
  rewrite (Z.eqb_sym j p). destruct (p =? j); [reflexivity|].
  rewrite at_insert by lia. now rewrite (Z.eqb_sym k p).
Qed.

Lemma keys_swap l (k j z : Z) :
  1 <= k <= z -> 1 <= j <= z -> (Z.to_nat z < length l)%nat ->
  keys (swap l k j) z ≡ₚ keys l z.
Proof.
  intros Hk Hj Hz. unfold keys, swap.
  rewrite !drop_insert_ge by lia.
  rewrite !take_insert_lt by lia.
  apply Permutation_insert_swap.
  - rewrite lookup_take_lt by lia. rewrite lookup_drop.
    replace (1 + (Z.to_nat k - 1))%nat with (Z.to_nat k) by lia.
    apply at_lookup. lia.
  - rewrite lookup_take_lt by lia. rewrite lookup_drop.
    replace (1 + (Z.to_nat j - 1))%nat with (Z.to_nat j) by lia.
    apply at_lookup. lia.
Qed.

Lemma keys_snoc l (z : Z) :
  1 <= z -> (Z.to_nat z < length l)%nat ->
  keys l z = keys l (z - 1) ++ [at_ l z].
Proof.
  intros Hz Hlt. unfold keys.
  replace (Z.to_nat z) with (S (Z.to_nat (z - 1))) at 1 by lia.
  apply take_S_r. rewrite lookup_drop.
  replace (1 + Z.to_nat (z - 1))%nat with (Z.to_nat z) by lia.
  now apply at_lookup.
Qed.

Lemma keys_elem l (z : Z) v :
  (Z.to_nat z < length l)%nat ->
  v ∈ keys l z <-> exists p, 1 <= p <= z /\ at_ l p = v.
Proof.
  intros Hlt. unfold keys. rewrite list_elem_of_lookup. split.
  - intros [i Hi]. apply lookup_take_Some in Hi as [Hi Hiz].
    rewrite lookup_drop in Hi. exists (Z.of_nat (1 + i)). split; [lia|].
    unfold at_, value in *. rewrite Nat2Z.id, Hi. reflexivity.
  - intros (p & Hp & <-). exists (Z.to_nat p - 1)%nat.
    rewrite lookup_take_lt by lia. rewrite lookup_drop.
    replace (1 + (Z.to_nat p - 1))%nat with (Z.to_nat p) by lia.
    apply at_lookup. lia.
Qed.

(** ** The comparator on keys *)

Lemma tp_not_gt cmp (x y : @value Key) :
  total_preorder cmp -> x <> None -> y <> None ->
  gt0 (cmp x y) = false -> le0 (cmp x y).
Proof.
  intros (H & _) Hx Hy. destruct x, y; try contradiction. apply H.
Qed.

Lemma tp_gt cmp (x y : @value Key) :
  total_preorder cmp -> x <> None -> y <> None ->
  gt0 (cmp x y) = true -> le0 (cmp y x).
Proof.
  intros (_ & H & _) Hx Hy. destruct x, y; try contradiction. apply H.
Qed.

Lemma tp_trans cmp (x y z : @value Key) :
  total_preorder cmp -> x <> None -> y <> None -> z <> None ->
  le0 (cmp x y) -> le0 (cmp y z) -> le0 (cmp x z).
Proof.
  intros (_ & _ & H) Hx Hy Hz. destruct x, y, z; try contradiction. apply H.
Qed.

Lemma tp_refl cmp (x : @value Key) :
  total_preorder cmp -> x <> None -> le0 (cmp x x).
Proof.
  intros Ht Hx. destruct (gt0 (cmp x x)) eqn:E.
  - now apply tp_gt.
  - now apply tp_not_gt.
Qed.

(** ** [sink] restores the heap order *)

Lemma array_eta a : mkArray (elems a) (props a) = a.
Proof. now destruct a. Qed.

Lemma exch_arr a (k j : Z) :
  0 <= k < arr_length a -> 0 <= j < arr_length a -> arr_length a < 2 ^ 32 ->
  arr_set (inject_Z j) (arr_get a (inject_Z k))
    (arr_set (inject_Z k) (arr_get a (inject_Z j)) a) =
  mkArray (swap (elems a) k j) (props a).
Proof.
  intros Hk Hj Hl. rewrite !arr_get_index by lia.
  rewrite (arr_set_index a k) by lia.
  rewrite arr_set_index;
    unfold arr_length in *; cbn [elems props]; rewrite ?length_insert;
    try lia.
  reflexivity.
Qed.

Lemma heap_of_almost cmp l (z k : Z) :
  almost_heap cmp l z k ->
  (forall ch, is_child k ch -> ch <= z -> le0 (cmp (at_ l k) (at_ l ch))) ->
  heap_list cmp l z.
Proof.
  intros [H1 _] Hk p ch Hp Hc Hz.
  destruct (Z.eq_dec p k) as [->|Hne]; auto.
Qed.

Lemma filled_swap l (z k j : Z) :
  1 <= k <= z -> 1 <= j <= z -> (Z.to_nat z < length l)%nat ->
  filled l z -> filled (swap l k j) z.
Proof.
  intros Hk Hj Hz Hf p Hp. rewrite at_swap by lia.
  destruct (p =? j); [apply Hf; lia|].
  destruct (p =? k); apply Hf; lia.
Qed.

(** One turn of the loop that exchanges [k] with its smaller child [j]
    moves the only possible violation from [k] down to [j]. *)
Lemma almost_heap_swap cmp l (z k j : Z) :
  total_preorder cmp -> filled l z ->
  1 <= k -> is_child k j -> j <= z -> (Z.to_nat z < length l)%nat ->
  almost_heap cmp l z k ->
  gt0 (cmp (at_ l k) (at_ l j)) = true ->
  (forall ch, is_child k ch -> ch <= z -> le0 (cmp (at_ l j) (at_ l ch))) ->
  almost_heap cmp (swap l k j) z j.
Proof.
  intros Ht Hf Hk Hkj Hjz Hz [H1 H2] Hgt Hmin.
  assert (Hkz : k <= z) by (unfold is_child in Hkj; lia).
  split.
  - intros p ch Hp Hc Hchz Hpj.
    assert (Hpz : p <= z) by (unfold is_child in Hc; lia).
    rewrite !at_swap by (unfold is_child in *; lia).
    destruct (Z.eqb_spec p j); [contradiction|].
    destruct (Z.eqb_spec p k) as [->|Hpk].
    + destruct (Z.eqb_spec ch j) as [->|Hcj].
      * apply tp_gt; auto; apply Hf; unfold is_child in *; lia.
      * destruct (Z.eqb_spec ch k); [unfold is_child in Hc; lia|].
        now apply Hmin.
    + destruct (Z.eqb_spec ch j) as [->|Hcj];
        [unfold is_child in *; lia|].
      destruct (Z.eqb_spec ch k) as [->|Hck].
      * now apply (H2 p j).
      * now apply H1.
  - intros g ch Hg Hgj Hjc Hchz.
    assert (g = k) by (unfold is_child in *; lia). subst g.
    rewrite !at_swap by (unfold is_child in *; lia).
    destruct (Z.eqb_spec k j); [unfold is_child in *; lia|].
    rewrite Z.eqb_refl.
    destruct (Z.eqb_spec ch j); [unfold is_child in *; lia|].
    destruct (Z.eqb_spec ch k); [unfold is_child in *; lia|].
    apply H1; auto; unfold is_child in *; lia.
Qed.

Lemma sink_spec w this cmp (z : Z) fuel : forall (k : Z) a,
  (pq (the_obj w this) < length (arrs w))%nat ->
  comparator (the_obj w this) = cmp -> n (the_obj w this) = z ->
  1 <= k -> z <= arr_length a - 1 -> arr_length a < 2 ^ 32 ->
  exists r l',
    sink fuel k this (with_arr w this a) =
      (r, with_arr w this (mkArray l' (props a))) /\
    (r = Ok tt \/ r = OutOfFuel) /\
    length l' = length (elems a) /\
    keys l' z ≡ₚ keys (elems a) z /\
    (forall p, 0 <= p -> p < k \/ z < p -> at_ l' p = at_ (elems a) p) /\
    (filled (elems a) z -> filled l' z) /\
    (total_preorder cmp -> filled (elems a) z ->
     almost_heap cmp (elems a) z k -> r = Ok tt -> heap_list cmp l' z).
Proof.
  induction fuel as [|fuel IH]; intros k a Hpq Hc Hn Hk Hz Hl;
    simpl sink; unfold bind at 1, get_n at 1;
    change (the_obj (with_arr w this a) this) with (the_obj w this);
    rewrite Hn.
  - (* no fuel left *)
    destruct (Z.leb_spec (2 * k) z) as [E|E].
    + exists OutOfFuel, (elems a). rewrite array_eta.
      repeat split; auto. discriminate.
    + exists (Ok tt), (elems a). rewrite array_eta.
      repeat split; auto. intros _ _ Ha _.
      apply (heap_of_almost _ _ _ k Ha). unfold is_child. intros; lia.
  - destruct (Z.leb_spec (2 * k) z) as [E|E].
    2:{ exists (Ok tt), (elems a). rewrite array_eta.
        repeat split; auto. intros _ _ Ha _.
        apply (heap_of_almost _ _ _ k Ha). unfold is_child. intros; lia. }
    unfold bind at 1, get_n at 1.
    change (the_obj (with_arr w this a) this) with (the_obj w this).
    rewrite Hn. unfold bind at 1.
    set (l := elems a) in *.
    assert (Hlen : (Z.to_nat z < length l)%nat)
      by (unfold arr_length in Hz; fold l in Hz; lia).
    (* the smaller child *)
    assert (Hg : exists b,
      (if 2 * k <? z
       then greater (inject_Z (2 * k)) (inject_Z (2 * k + 1))
       else ret false) this (with_arr w this a) = (Ok b, with_arr w this a) /\
      (b = true -> 2 * k + 1 <= z /\
         gt0 (cmp (at_ l (2 * k)) (at_ l (2 * k + 1))) = true) /\
      (b = false -> 2 * k + 1 <= z ->
         gt0 (cmp (at_ l (2 * k)) (at_ l (2 * k + 1))) = false)).
    { destruct (Z.ltb_spec (2 * k) z) as [E2|E2].
      - rewrite greater_with by assumption.
        rewrite Hc, !arr_get_index by (unfold arr_length in *; lia).
        fold l. eexists. split; [reflexivity|]. split.
        + intros ->. split; [lia|reflexivity].
        + intros -> _. reflexivity.
      - exists false. split; [reflexivity|]. split; [discriminate|].
        intros _ ?; lia. }
    destruct Hg as (b & -> & Hb1 & Hb2).
    set (j := if b then 2 * k + 1 else 2 * k).
    assert (Hkj : is_child k j) by (unfold is_child, j; destruct b; lia).
    assert (Hjz : j <= z).
    { unfold j. destruct b; [now destruct (Hb1 eq_refl)|lia]. }
    assert (Hj1 : k < j) by (unfold is_child in Hkj; lia).
    unfold bind at 1. rewrite greater_with by assumption.
    rewrite Hc, !arr_get_index by (unfold arr_length in *; lia). fold l.
    assert (Hmin : total_preorder cmp -> filled l z ->
      forall ch, is_child k ch -> ch <= z -> le0 (cmp (at_ l j) (at_ l ch))).
    { intros Ht Hf ch Hch Hchz.
      destruct (Z.eq_dec ch j) as [->|Hne].
      { apply tp_refl; auto. apply Hf. lia. }
      unfold j in *. destruct b.
      - destruct (Hb1 eq_refl) as [_ Hgt].
        assert (ch = 2 * k) by (unfold is_child in Hch; lia). subst ch.
        apply tp_gt; auto; apply Hf; lia.
      - assert (ch = 2 * k + 1) by (unfold is_child in Hch; lia). subst ch.
        apply tp_not_gt; auto; try (apply Hf; lia); apply Hb2; auto; lia. }
    destruct (gt0 (cmp (at_ l k) (at_ l j))) eqn:Egt; cbn [negb].
    2:{ (* the key at k is not greater: stop *)
        exists (Ok tt), l. unfold l at 1. rewrite array_eta.
        repeat split; auto. intros Ht Hf Ha _.
        apply (heap_of_almost _ _ _ k Ha). intros ch Hch Hchz.
        apply tp_trans with (at_ l j); auto;
          try (apply Hf; unfold is_child in *; lia).
        apply tp_not_gt; auto; apply Hf; lia. }
    (* exchange and go down *)
    unfold bind. rewrite exch_with by assumption.
    rewrite exch_arr by (unfold arr_length in *; lia). fold l.
    destruct (IH j (mkArray (swap l k j) (props a)) Hpq Hc Hn)
      as (r & l' & -> & Hr & Hlen' & Hperm & Hout & Hfill & Hheap).
    { unfold is_child in Hkj; lia. }
    { unfold arr_length in *; cbn [elems]. rewrite swap_length. exact Hz. }
    { unfold arr_length in *; cbn [elems]. rewrite swap_length. exact Hl. }
    cbn [elems props] in *.
    exists r, l'. split; [reflexivity|]. split; [exact Hr|].
    split; [now rewrite Hlen', swap_length|].
    split; [rewrite Hperm; apply keys_swap; lia|].
    split.
    { intros p Hp Hpk. rewrite Hout by (unfold is_child in Hkj; lia).
      rewrite at_swap by lia.
      destruct (Z.eqb_spec p j); [unfold is_child in Hkj; lia|].
      destruct (Z.eqb_spec p k); [lia|reflexivity]. }
    split.
    { intros Hf. apply Hfill, filled_swap; auto; lia. }
    intros Ht Hf Ha Hok. apply Hheap; auto.
    + apply filled_swap; auto; lia.
    + apply almost_heap_swap; auto.
Qed.

End Order.

Section Methods.

Context {Key : Type}.

Implicit Types (w : @World Key) (o this : oref) (a : @JSArray Key)
  (l : list (@value Key)) (cmp : @Comparator Key).

(** ** What [delMin] does to a heap whose count fits its array *)

Lemma with_n_obj w this (z : Z) :
  (this < length (objs w))%nat ->
  the_obj (with_n w this z) this =
  mkPQ (pq (the_obj w this)) z (comparator (the_obj w this)).
Proof. intros Hlt. unfold with_n. now apply the_obj_insert_eq. Qed.

Lemma view_with_n w this z c a z' :
  view w this = Some (z, c, a) ->
  view (with_n w this z') this = Some (z', c, a).
Proof. intros Hv. exact (set_n_view z' _ _ _ _ _ Hv). Qed.

Lemma Qeq_bool_quarter (c len : Z) :
  Qeq_bool (inject_Z c) ((inject_Z len - 1) / 4) = (4 * c =? len - 1).
Proof.
  destruct (Z.eqb_spec (4 * c) (len - 1)) as [E|E].
  - apply Qeq_bool_iff. replace len with (4 * c + 1) by lia.
    rewrite inject_Z_plus, inject_Z_mult.
    change (inject_Z 4) with 4%Q. change (inject_Z 1) with 1%Q. field.
  - destruct (Qeq_bool _ _) eqn:Hq; [|reflexivity]. exfalso. apply E.
    apply Qeq_bool_eq in Hq.
    assert (H4 : (inject_Z (4 * c) == inject_Z (len - 1))%Q).
    { unfold Z.sub. rewrite inject_Z_plus, inject_Z_mult, Hq.
      change (inject_Z 4) with 4%Q. change (inject_Z (- (1))) with (- (1))%Q.
      field. }
    apply inject_Z_injective. exact H4.
Qed.

Lemma keys_insert_above l (z : Z) (i : nat) v :
  (1 <= i)%nat -> (Z.to_nat z < i)%nat -> keys (<[i := v]> l) z = keys l z.
Proof.
  intros Hi Hz. unfold keys. rewrite drop_insert_ge by lia.
  now rewrite take_insert_ge by lia.
Qed.

Lemma at_insert_other l (i : nat) (p : Z) v :
  Z.to_nat p <> i -> at_ (<[i := v]> l) p = at_ l p.
Proof.
  intros Hne. unfold at_. now rewrite list_lookup_insert_ne by lia.
Qed.

Lemma delMin_spec w this (z : Z) c a fuel :
  view w this = Some (z, c, a) ->
  1 <= z <= arr_length a - 1 -> arr_length a < 2 ^ 32 ->
  z <= Z.of_nat fuel ->
  exists l',
    delMin fuel this w =
      (if (0 <? z - 1) && (4 * (z - 1) =? arr_length a - 1)
       then Throw RangeError else Ok (at_ (elems a) 1),
       with_arr (with_n w this (z - 1)) this (mkArray l' (props a))) /\
    length l' = length (elems a) /\
    keys l' (z - 1) ++ [at_ (elems a) 1] ≡ₚ keys (elems a) z /\
    (filled (elems a) z -> filled l' (z - 1)) /\
    (total_preorder c -> filled (elems a) z -> heap_list c (elems a) z ->
     heap_list c l' (z - 1)).
Proof.
  intros Hv Hz Hl Hfuel.
  destruct (view_the _ _ _ _ _ Hv) as (Hn & Hc & Ha & Hlt & Hpq & _).
  set (l := elems a).
  assert (Hlen : (Z.to_nat z < length l)%nat)
    by (unfold arr_length in Hz; fold l in Hz; lia).
  (* the prefix: the root is read and the count decremented *)
  assert (Hempty : isEmpty this w = (Ok false, w)).
  { unfold isEmpty, bind, get_n, ret. rewrite Hn.
    now replace (z =? 0) with false by (symmetry; apply Z.eqb_neq; lia). }
  assert (Hroot : this_load 1 this w = (Ok (at_ l 1), w)).
  { unfold this_load, bind, get_pq, load. rewrite Ha.
    reflexivity. }
  unfold delMin. unfold bind at 1. rewrite Hempty.
  unfold bind at 1. rewrite Hroot.
  unfold bind at 1, get_n at 1. rewrite Hn.
  unfold bind at 1, set_n at 1.
  change (mkWorld _ _) with (with_n w this (z - 1)).
  set (w1 := with_n w this (z - 1)).
  pose proof (view_with_n _ _ _ _ _ (z - 1) Hv) as Hv1. fold w1 in Hv1.
  destruct (view_the _ _ _ _ _ Hv1) as (Hn1 & Hc1 & Ha1 & Hlt1 & Hpq1 & _).
  (* exch(1, n) *)
  assert (Hex : exch 1 (inject_Z z) this w1 =
                (Ok tt, with_arr w1 this (mkArray (swap l 1 z) (props a)))).
  { pose proof (exch_with w1 this a (inject_Z 1) (inject_Z z) Hpq1) as H.
    rewrite (with_arr_id _ _ _ _ _ Hv1) in H.
    rewrite exch_arr in H by lia. exact H. }
  unfold bind at 1. rewrite Hex.
  (* sink(1) *)
  destruct (sink_spec w1 this c (z - 1) fuel 1
              (mkArray (swap l 1 z) (props a)) Hpq1 Hc1 Hn1)
    as (r & l2 & Hsink & Hr & Hlen2 & Hperm2 & Hout2 & Hfill2 & Hheap2).
  { lia. }
  { unfold arr_length in *; cbn [elems]. rewrite swap_length. fold l in Hz. lia. }
  { unfold arr_length in *; cbn [elems]. rewrite swap_length. exact Hl. }
  cbn [elems props] in *.
  assert (Hrok : r = Ok tt).
  { destruct Hr as [->| ->]; [reflexivity|]. exfalso.
    apply (sink_terminates fuel 1 this
             (with_arr w1 this (mkArray (swap l 1 z) (props a))));
      [lia| |now rewrite Hsink].
    change (the_obj (with_arr w1 this _) this) with (the_obj w1 this).
    rewrite Hn1. lia. }
  subst r. unfold bind at 1. rewrite Hsink.
  rewrite swap_length in Hlen2.
  (* pq[n+1] = pq[n] *)
  unfold bind at 1, get_n at 1.
  change (the_obj (with_arr w1 this _) this) with (the_obj w1 this).
  rewrite Hn1. unfold bind at 1. rewrite this_load_with by assumption.
  unfold bind at 1. rewrite this_store_with by assumption.
  replace (z - 1 + 1) with z by lia.
  rewrite arr_get_index by lia.
  rewrite arr_set_index
    by (unfold arr_length in *; cbn [elems]; rewrite ?Hlen2; unfold l in *;
        lia).
  cbn [elems props].
  set (l3 := <[Z.to_nat z := at_ l2 (z - 1)]> l2).
  (* the halving test *)
  unfold bind at 1, get_n at 1.
  change (the_obj (with_arr w1 this _) this) with (the_obj w1 this).
  rewrite Hn1. unfold bind at 1. rewrite this_length_with by assumption.
  assert (Hlen3 : length l3 = length l)
    by (unfold l3; now rewrite length_insert).
  assert (Hal3 : arr_length (mkArray l3 (props a)) = arr_length a)
    by (unfold arr_length; cbn [elems]; now rewrite Hlen3).
  rewrite Hal3, Qeq_bool_quarter.
  exists l3. split.
  { unfold bind. destruct ((0 <? z - 1) && (4 * (z - 1) =? arr_length a - 1))
      eqn:Ecap; [|reflexivity].
    rewrite (halving_throws (z - 1) (arr_length a)); [reflexivity|].
    rewrite Qeq_bool_quarter. now apply andb_true_iff in Ecap. }
  split; [exact Hlen3|]. split.
  { unfold l3. rewrite keys_insert_above by lia. rewrite Hperm2.
    rewrite <- (keys_swap l 1 z z) by lia.
    rewrite (keys_snoc (swap l 1 z) z) by (rewrite ?swap_length; lia).
    rewrite at_swap by lia. now rewrite Z.eqb_refl. }
  assert (Hf1 : filled l z -> filled (swap l 1 z) (z - 1)).
  { intros Hf p Hp. rewrite at_swap by lia.
    destruct (p =? z); [apply Hf; lia|].
    destruct (p =? 1); apply Hf; lia. }
  split.
  { intros Hf p Hp. unfold l3. rewrite at_insert_other by lia.
    apply Hfill2; auto. }
  intros Ht Hf Hh p ch Hp Hch Hchz.
  unfold l3. rewrite !at_insert_other by (unfold is_child in Hch; lia).
  apply Hheap2; auto.
  split.
  - intros p' ch' Hp' Hch' Hchz' Hne.
    rewrite !at_swap by (unfold is_child in *; lia).
    destruct (Z.eqb_spec p' z); [unfold is_child in *; lia|].
    destruct (Z.eqb_spec p' 1); [lia|].
    destruct (Z.eqb_spec ch' z); [lia|].
    destruct (Z.eqb_spec ch' 1); [unfold is_child in *; lia|].
    apply Hh; auto. lia.
  - intros g ch' Hg Hg1. unfold is_child in Hg1. lia.
Qed.

(** ** Heap order: the root is a least key *)

Lemma heap_ordered_list w o (z : Z) c a :
  view w o = Some (z, c, a) -> z < 2 ^ 32 - 1 ->
  heap_ordered w o <-> heap_list c (elems a) z.
Proof.
  intros (Hn & Hc & Ha & _)%view_the Hz. unfold heap_ordered.
  rewrite Hn, Hc, Ha. split.
  - intros H p ch Hp Hch Hchz.
    destruct (H p) as [H1 H2]; [unfold is_child in Hch; lia|].
    rewrite <- !arr_get_index by (unfold is_child in Hch; lia).
    destruct Hch as [-> | ->]; [apply H1|apply H2]; lia.
  - intros H k Hk.
    split; intros Hle; rewrite !arr_get_index by lia;
      apply H; unfold is_child; auto; lia.
Qed.

Lemma root_min cmp l (z : Z) :
  total_preorder cmp -> filled l z -> heap_list cmp l z ->
  forall p, 1 <= p <= z -> le0 (cmp (at_ l 1) (at_ l p)).
Proof.
  intros Ht Hf Hh.
  assert (H : forall m : nat, forall p, 1 <= p <= z -> p <= Z.of_nat m ->
              le0 (cmp (at_ l 1) (at_ l p))).
  { induction m as [|m IH]; intros p Hp Hm; [lia|].
    destruct (Z.eq_dec p 1) as [->|Hne].
    { apply tp_refl; auto. }
    pose proof (Z.div_mod p 2 ltac:(lia)) as Hd.
    pose proof (Z.mod_pos_bound p 2 ltac:(lia)) as Hb.
    apply tp_trans with (at_ l (p / 2)); auto; try (apply Hf; lia).
    - apply IH; lia.
    - apply Hh; [lia| |lia]. unfold is_child. lia. }
  intros p Hp. apply (H (Z.to_nat p)); lia.
Qed.

(** ** The traversal loop on a heap whose count fits its array *)

Lemma yielded_app (ys1 ys2 : list (@IterResult Key)) :
  yielded (ys1 ++ ys2) = yielded ys1 ++ yielded ys2.
Proof.
  induction ys1 as [|[v|] ys1 IH]; simpl; [reflexivity| |assumption].
  now rewrite IH.
Qed.

Lemma yielded_map (vs : list (@value Key)) : yielded (map Yield vs) = vs.
Proof. induction vs as [|v vs IH]; simpl; [reflexivity|now rewrite IH]. Qed.

Lemma drain_spec sfuel fuel : forall w this (z : Z) c a,
  view w this = Some (z, c, a) ->
  0 <= z <= arr_length a - 1 -> arr_length a < 2 ^ 32 ->
  z <= Z.of_nat fuel -> z <= Z.of_nat sfuel ->
  exists ys r,
    fst (drain sfuel fuel this w) = Ok (ys, r) /\
    r <> OutOfFuel /\
    Forall (fun v => v ∈ keys (elems a) z) (yielded ys) /\
    (r = Ok tt ->
     ys = map Yield (yielded ys) ++ [YieldDone] /\
     yielded ys ≡ₚ keys (elems a) z) /\
    (arr_length a = 1 \/ Z.even (arr_length a) = true -> r = Ok tt) /\
    (total_preorder c -> filled (elems a) z -> heap_list c (elems a) z ->
     ascending c (yielded ys)).
Proof.
  induction fuel as [|fuel IH]; intros w this z c a Hv Hz Hl Hf Hs;
    destruct (view_the _ _ _ _ _ Hv) as (Hn & _);
    simpl drain; unfold bind at 1, isEmpty, bind at 1, get_n at 1, ret at 1;
    rewrite Hn.
  - replace (z =? 0) with true by (symmetry; apply Z.eqb_eq; lia).
    exists [YieldDone], (Ok tt). simpl.
    replace z with 0 by lia. repeat split; auto; discriminate.
  - destruct (Z.eqb_spec z 0) as [->|Hz0].
    { exists [YieldDone], (Ok tt). simpl. repeat split; auto; discriminate. }
    destruct (delMin_spec w this z c a sfuel Hv) as
      (l' & Hdel & Hlen' & Hperm & Hfill & Hheap); [lia|lia|lia|].
    set (w2 := with_arr (with_n w this (z - 1)) this (mkArray l' (props a)))
      in *.
    assert (Hv2 : view w2 this = Some (z - 1, c, mkArray l' (props a))).
    { unfold w2. eapply view_with_arr, view_with_n, Hv. }
    assert (Hal : arr_length (mkArray l' (props a)) = arr_length a).
    { unfold arr_length; cbn [elems]. now rewrite Hlen'. }
    unfold bind at 1, try at 1. rewrite Hdel.
    destruct ((0 <? z - 1) && (4 * (z - 1) =? arr_length a - 1)) eqn:Ecap.
    { (* the halving resize throws *)
      exists [], (Throw RangeError). simpl.
      split; [reflexivity|]. split; [discriminate|]. split; [constructor|].
      split; [discriminate|]. split; [|auto].
      apply andb_true_iff in Ecap as [E1%Z.ltb_lt E2%Z.eqb_eq].
      intros [H1|Hev]; [lia|]. exfalso.
      replace (arr_length a) with (4 * (z - 1) + 1) in Hev by lia.
      rewrite Z.even_add, Z.even_mul in Hev. discriminate. }
    destruct (IH w2 this (z - 1) c (mkArray l' (props a)) Hv2)
      as (ys & r & Hys & Hr & Hin & Hok & Hev & Hasc);
      [rewrite Hal; lia|rewrite Hal; lia|lia|lia|].
    cbn [elems] in *.
    assert (Hlz : (Z.to_nat z < length (elems a))%nat)
      by (unfold arr_length in Hz; lia).
    assert (Hsub : forall v, v ∈ keys l' (z - 1) -> v ∈ keys (elems a) z).
    { intros v Hvin. rewrite <- Hperm. apply elem_of_app. now left. }
    exists (Yield (at_ (elems a) 1) :: ys), r.
    split.
    { unfold bind. destruct (drain sfuel fuel this w2) as [[[ys0 r0]| |] w3];
        cbn [fst] in Hys; try discriminate.
      injection Hys as -> ->. reflexivity. }
    split; [exact Hr|]. split.
    { simpl. constructor.
      - apply keys_elem; [assumption|]. exists 1. split; [lia|reflexivity].
      - eapply Forall_impl; [exact Hin|]. exact Hsub. }
    split.
    { intros Hrok. destruct (Hok Hrok) as [Hshape Hp]. simpl. split.
      - now rewrite <- Hshape.
      - rewrite Hp, <- Hperm. apply Permutation_cons_append. }
    split; [now rewrite Hal in Hev|].
    intros Ht Hfl Hh. simpl. split.
    + eapply Forall_impl; [exact Hin|]. intros v Hvin.
      apply Hsub, keys_elem in Hvin as (p & Hp & <-); [|assumption].
      now apply root_min with z.
    + apply Hasc; auto.
Qed.

(** ** What [resize] builds *)

Lemma array_length_ok_inject_Z (m : Z) :
  0 <= m < 2 ^ 32 -> array_length_ok (inject_Z m) = Some (Z.to_nat m).
Proof.
  intros Hm. unfold array_length_ok. rewrite Qred_inject_Z.
  cbn [Qnum Qden inject_Z]. rewrite Pos.eqb_refl.
  replace (0 <=? m) with true by (symmetry; apply Z.leb_le; lia).
  replace (m <? 2 ^ 32) with true by (symmetry; apply Z.ltb_lt; lia).
  reflexivity.
Qed.

Lemma array_length_ok_Qeq (p q : Q) :
  (p == q)%Q -> array_length_ok p = array_length_ok q.
Proof.
  intros H. unfold array_length_ok. now rewrite (Qred_complete _ _ H).
Qed.

Lemma array_length_ok_big (m : Z) :
  2 ^ 32 <= m -> array_length_ok (inject_Z m) = None.
Proof.
  intros Hm. unfold array_length_ok. rewrite Qred_inject_Z.
  cbn [Qnum Qden inject_Z].
  replace (m <? 2 ^ 32) with false by (symmetry; apply Z.ltb_ge; lia).
  now rewrite andb_false_r.
Qed.

Lemma resize_fold a (L : nat) idx : forall t : @JSArray Key,
  length (elems t) = L -> Z.of_nat L < 2 ^ 32 ->
  Forall (fun i => 0 <= i < Z.of_nat L) idx ->
  let r := fold_left
             (fun t i => arr_set (inject_Z i) (arr_get a (inject_Z i)) t)
             idx t in
  length (elems r) = L /\ props r = props t /\
  forall p, 0 <= p ->
    at_ (elems r) p =
    if decide (p ∈ idx) then at_ (elems a) p else at_ (elems t) p.
Proof.
  induction idx as [|i idx IH]; intros t Ht HL Hidx; cbn [fold_left].
  - split; [exact Ht|]. split; [reflexivity|]. intros p Hp.
    destruct (decide (p ∈ [])) as [Hin|]; [inversion Hin|reflexivity].
  - inversion Hidx as [|? ? Hi Hidx']; subst.
    rewrite arr_get_index by lia.
    rewrite arr_set_index by (unfold arr_length; lia).
    destruct (IH (mkArray (<[Z.to_nat i := at_ (elems a) i]> (elems t))
                          (props t)))
      as (Hlen & Hprops & Hat); auto.
    { cbn [elems]. now rewrite length_insert. }
    split; [exact Hlen|]. split; [exact Hprops|]. intros p Hp.
    rewrite Hat by assumption. cbn [elems].
    destruct (decide (p ∈ idx)) as [Hin|Hnin].
    + destruct (decide (p ∈ i :: idx)) as [|Hn]; [reflexivity|].
      exfalso. apply Hn. now right.
    + rewrite at_insert by lia.
      destruct (Z.eqb_spec i p) as [->|Hne].
      * destruct (decide (p ∈ p :: idx)) as [|Hn]; [reflexivity|].
        exfalso. apply Hn. now left.
      * destruct (decide (p ∈ i :: idx)) as [Hin|]; [|reflexivity].
        apply elem_of_cons in Hin as [->|Hin]; contradiction.
Qed.

Lemma at_replicate (L : nat) (p : Z) :
  at_ (replicate L (None : @value Key)) p = None.
Proof.
  unfold at_.
  destruct (replicate L (None : @value Key) !! Z.to_nat p) as [v|] eqn:E;
    [|reflexivity].
  now apply lookup_replicate in E as [-> _].
Qed.

Lemma resize_arr_spec a (L z : Z) :
  0 <= z < L -> L < 2 ^ 32 ->
  let r := resize_arr (Z.to_nat L) a (map Z.of_nat (seq 1 (Z.to_nat z))) in
  arr_length r = L /\ props r = [] /\
  forall p, 0 <= p ->
    at_ (elems r) p = if (1 <=? p) && (p <=? z) then at_ (elems a) p else None.
Proof.
  intros Hz HL. unfold resize_arr.
  destruct (resize_fold a (Z.to_nat L) (map Z.of_nat (seq 1 (Z.to_nat z)))
              (mkArray (replicate (Z.to_nat L) None) []))
    as (Hlen & Hprops & Hat).
  { cbn [elems]. apply length_replicate. }
  { lia. }
  { apply Forall_forall. intros i Hi.
    apply list_elem_of_In, in_map_iff in Hi as (m & <- & Hm).
    apply in_seq in Hm. lia. }
  split; [unfold arr_length; rewrite Hlen; lia|].
  split; [exact Hprops|]. intros p Hp. rewrite Hat by assumption.
  destruct (decide (p ∈ map Z.of_nat (seq 1 (Z.to_nat z)))) as [Hin|Hnin].
  - apply list_elem_of_In, in_map_iff in Hin as (m & <- & Hm).
    apply in_seq in Hm.
    replace (1 <=? Z.of_nat m) with true by (symmetry; apply Z.leb_le; lia).
    replace (Z.of_nat m <=? z) with true by (symmetry; apply Z.leb_le; lia).
    reflexivity.
  - cbn [elems]. rewrite at_replicate.
    destruct (Z.leb_spec 1 p), (Z.leb_spec p z); cbn [andb];
      try reflexivity.
    exfalso. apply Hnin. apply list_elem_of_In, in_map_iff.
    exists (Z.to_nat p). split; [lia|]. apply in_seq. lia.
Qed.

(** ** What [insert] does to a heap whose count fits its array *)

Lemma insert_tail w this (z : Z) c a fuel (x : Key) :
  view w this = Some (z, c, a) ->
  (c0 <- get_n ;;
   set_n (c0 + 1) ;;;
   this_store (inject_Z (c0 + 1)) (Some x) ;;;
   c1 <- get_n ;;
   swim fuel (inject_Z c1)) this w =
  swim fuel (inject_Z (z + 1)) this
    (with_arr (with_n w this (z + 1)) this
       (arr_set (inject_Z (z + 1)) (Some x) a)).
Proof.
  intros Hv. destruct (view_the _ _ _ _ _ Hv) as (Hn & _).
  unfold bind at 1, get_n at 1. rewrite Hn.
  unfold bind at 1, set_n at 1.
  change (mkWorld _ _) with (with_n w this (z + 1)).
  set (w1 := with_n w this (z + 1)).
  pose proof (view_with_n _ _ _ _ _ (z + 1) Hv) as Hv1. fold w1 in Hv1.
  destruct (view_the _ _ _ _ _ Hv1) as (Hn1 & _ & _ & _ & Hpq1 & _).
  assert (Hst : this_store (inject_Z (z + 1)) (Some x) this w1 =
                (Ok tt, with_arr w1 this
                          (arr_set (inject_Z (z + 1)) (Some x) a))).
  { pose proof (this_store_with w1 this a (inject_Z (z + 1)) (Some x) Hpq1)
      as H.
    now rewrite (with_arr_id _ _ _ _ _ Hv1) in H. }
  unfold bind at 1. rewrite Hst.
  unfold bind at 1, get_n at 1.
  change (the_obj (with_arr w1 this _) this) with (the_obj w1 this).
  now rewrite Hn1.
Qed.

Lemma insert_room w this (z : Z) c a fuel (x : Key) :
  view w this = Some (z, c, a) -> z <> arr_length a - 1 ->
  insert fuel x this w =
  swim fuel (inject_Z (z + 1)) this
    (with_arr (with_n w this (z + 1)) this
       (arr_set (inject_Z (z + 1)) (Some x) a)).
Proof.
  intros Hv Hroom. destruct (view_the _ _ _ _ _ Hv) as (Hn & _ & Ha & _).
  unfold insert. unfold bind at 1, get_n at 1. rewrite Hn.
  unfold bind at 1, this_length at 1. rewrite Ha.
  replace (z =? arr_length a - 1) with false
    by (symmetry; now apply Z.eqb_neq).
  unfold bind at 1, ret at 1. now apply insert_tail with c.
Qed.

Lemma insert_full w this (z : Z) c a fuel (x : Key) :
  view w this = Some (z, c, a) -> z = arr_length a - 1 ->
  2 * arr_length a < 2 ^ 32 ->
  let w_r := snd (resize (2 * inject_Z (arr_length a)) this w) in
  let a_r := resize_arr (Z.to_nat (2 * arr_length a)) a
               (map Z.of_nat (seq 1 (Z.to_nat z))) in
  view w_r this = Some (z, c, a_r) /\
  insert fuel x this w =
  swim fuel (inject_Z (z + 1)) this
    (with_arr (with_n w_r this (z + 1)) this
       (arr_set (inject_Z (z + 1)) (Some x) a_r)).
Proof.
  intros Hv Hfull Hsmall w_r a_r.
  destruct (view_the _ _ _ _ _ Hv) as (Hn & _ & Ha & _).
  assert (Hok : array_length_ok (2 * inject_Z (arr_length a)) =
                Some (Z.to_nat (2 * arr_length a))).
  { rewrite (array_length_ok_Qeq _ (inject_Z (2 * arr_length a))).
    - apply array_length_ok_inject_Z. unfold arr_length in *. lia.
    - rewrite inject_Z_mult. reflexivity. }
  destruct (resize_view _ _ _ _ _ _ _ Hv Hok) as [Hr Hvr].
  fold w_r a_r in Hvr. split; [exact Hvr|].
  unfold insert. unfold bind at 1, get_n at 1. rewrite Hn.
  unfold bind at 1, this_length at 1. rewrite Ha.
  replace (z =? arr_length a - 1) with true
    by (symmetry; now apply Z.eqb_eq).
  unfold bind at 1.
  destruct (resize (2 * inject_Z (arr_length a)) this w) as [r w'] eqn:E.
  cbn [fst snd] in *. subst r w_r. now apply insert_tail with c.
Qed.

(** ** [isMinHeap] *)






(** ** The state after [insert] *)

Lemma insert_overflow w this (z : Z) c a fuel (x : Key) :
  view w this = Some (z, c, a) -> z = arr_length a - 1 ->
  2 ^ 32 <= 2 * arr_length a ->
  insert fuel x this w = (Throw RangeError, w).
Proof.
  intros Hv Hfull Hbig.
  destruct (view_the _ _ _ _ _ Hv) as (Hn & _ & Ha & _).
  unfold insert. unfold bind at 1, get_n at 1. rewrite Hn.
  unfold bind at 1, this_length at 1. rewrite Ha.
  replace (z =? arr_length a - 1) with true
    by (symmetry; now apply Z.eqb_eq).
  unfold bind at 1. rewrite resize_throws; [reflexivity|].
  rewrite (array_length_ok_Qeq _ (inject_Z (2 * arr_length a))).
  - now apply array_length_ok_big.
  - rewrite inject_Z_mult. reflexivity.
Qed.

Lemma swim_view w this (z : Z) c a fuel (k : Q) :
  view w this = Some (z, c, a) ->
  (k <= inject_Z (arr_length a - 1))%Q ->
  exists r a',
    swim fuel k this w = (r, with_arr w this a') /\
    view (with_arr w this a') this = Some (z, c, a') /\
    arr_length a' = arr_length a /\ (r = Ok tt \/ r = OutOfFuel).
Proof.
  intros Hv Hk. destruct (view_the _ _ _ _ _ Hv) as (_ & _ & _ & _ & Hpq & _).
  destruct (swim_length w this fuel k a Hpq Hk) as (r & a' & Hs & Hl & Hr).
  rewrite (with_arr_id _ _ _ _ _ Hv) in Hs.
  exists r, a'. split; [exact Hs|]. split; [|auto].
  eapply view_with_arr, Hv.
Qed.

(** The array after [insert]: the count goes up by one and the length
    doubles exactly when the array was full. *)
Lemma insert_view w this (z : Z) c a fuel (x : Key) :
  view w this = Some (z, c, a) ->
  0 <= z <= arr_length a - 1 ->
  (z = arr_length a - 1 -> 2 * arr_length a < 2 ^ 32) ->
  exists r a',
    fst (insert fuel x this w) = r /\ (r = Ok tt \/ r = OutOfFuel) /\
    view (snd (insert fuel x this w)) this = Some (z + 1, c, a') /\
    arr_length a' =
      (if z =? arr_length a - 1 then 2 * arr_length a else arr_length a).
Proof.
  intros Hv Hz Hl.
  destruct (Z.eqb_spec z (arr_length a - 1)) as [Hfull|Hroom].
  - specialize (Hl Hfull).
    destruct (insert_full w this z c a fuel x Hv Hfull Hl) as [Hvr ->].
    set (w_r := snd (resize _ this w)) in *.
    set (a_r := resize_arr _ a _) in *.
    destruct (resize_arr_spec a (2 * arr_length a) z) as (Hlr & _);
      [lia|lia|]. fold a_r in Hlr.
    pose proof (view_with_n _ _ _ _ _ (z + 1) Hvr) as Hv1.
    pose proof (view_with_arr _ _ _ _ _
                  (arr_set (inject_Z (z + 1)) (Some x) a_r) Hv1) as Hv2.
    assert (Hl2 : arr_length (arr_set (inject_Z (z + 1)) (Some x) a_r) =
                  2 * arr_length a).
    { rewrite arr_set_length; [exact Hlr|].
      rewrite Hlr, <- Zle_Qle. lia. }
    destruct (swim_view _ this (z + 1) c _ fuel (inject_Z (z + 1)) Hv2)
      as (r & a' & Hs & Hv' & Hl' & Hr).
    { rewrite Hl2, <- Zle_Qle. lia. }
    rewrite with_arr_twice in Hs, Hv'.
    exists r, a'. rewrite Hs. cbn [fst snd].
    split; [reflexivity|]. split; [exact Hr|]. split; [exact Hv'|].
    now rewrite Hl', Hl2.
  - rewrite (insert_room w this z c a fuel x Hv Hroom).
    pose proof (view_with_n _ _ _ _ _ (z + 1) Hv) as Hv1.
    pose proof (view_with_arr _ _ _ _ _
                  (arr_set (inject_Z (z + 1)) (Some x) a) Hv1) as Hv2.
    assert (Hl2 : arr_length (arr_set (inject_Z (z + 1)) (Some x) a) =
                  arr_length a).
    { apply arr_set_length. rewrite <- Zle_Qle. lia. }
    destruct (swim_view _ this (z + 1) c _ fuel (inject_Z (z + 1)) Hv2)
      as (r & a' & Hs & Hv' & Hl' & Hr).
    { rewrite Hl2, <- Zle_Qle. lia. }
    rewrite with_arr_twice in Hs, Hv'.
    exists r, a'. rewrite Hs. cbn [fst snd].
    split; [reflexivity|]. split; [exact Hr|]. split; [exact Hv'|].
    now rewrite Hl', Hl2.
Qed.

End Methods.

(** * [insert] with a comparator that may throw *)

Section Throwing.

Context {Key : Type}.

Variable raises : @value Key -> @value Key -> bool.

Implicit Types (w : @World Key) (o this : oref) (a : @JSArray Key)
  (v : @value Key).

Lemma prop_get_set_same (ps : list (Q * @value Key)) (q : Q) v :
  prop_get (prop_set ps q v) q = v.
Proof.
  assert (Hq : Qeq_bool q q = true) by (apply Qeq_bool_iff; reflexivity).
  induction ps as [|[k u] ps IH]; simpl.
  - now rewrite Hq.
  - destruct (Qeq_bool k q) eqn:E; simpl; rewrite E; [reflexivity|exact IH].
Qed.

(** Reading a key just written gives what was written, index or not. *)
Lemma arr_get_set_same a (q : Q) v : arr_get (arr_set q v a) q = v.
Proof.
  unfold arr_get, arr_set. destruct (array_index q) as [i|] eqn:Hi.
  - destruct (Nat.ltb_spec i (length (elems a))) as [Hlt|Hge]; cbn [elems].
    + now rewrite list_lookup_insert_eq.
    + unfold value in *. rewrite lookup_app_r by lia.
      rewrite lookup_app_r by (rewrite length_replicate; lia).
      rewrite length_replicate, Nat.sub_diag. reflexivity.
  - cbn [props]. apply prop_get_set_same.
Qed.

Lemma raising_greater_with w this a i j :
  (pq (the_obj w this) < length (arrs w))%nat ->
  Raising.greater raises i j this (with_arr w this a) =
  (if raises (arr_get a i) (arr_get a j) then Throw ComparatorError
   else Ok (gt0 (comparator (the_obj w this) (arr_get a i) (arr_get a j))),
   with_arr w this a).
Proof.
  intros Hpq. unfold Raising.greater, bind.
  rewrite !this_load_with by assumption. unfold get_comparator.
  change (the_obj (with_arr w this a) this) with (the_obj w this).
  now destruct (raises _ _).
Qed.

(** [swim] on a key [v] at [k]: the key compared with its would-be parent
    is [v] at every turn. *)
Lemma raising_swim_spec w this v fuel : forall (k : Q) a,
  (pq (the_obj w this) < length (arrs w))%nat ->
  (k <= inject_Z (arr_length a - 1))%Q ->
  (k <= inject_Z (Z.of_nat fuel) + 1)%Q ->
  arr_get a k = v ->
  exists r a',
    Raising.swim raises fuel k this (with_arr w this a) =
      (r, with_arr w this a') /\
    arr_length a' = arr_length a /\
    (r = Ok tt \/ r = Throw ComparatorError) /\
    ((forall u, raises u v = false) ->
     r = Ok tt /\
     swim fuel k this (with_arr w this a) = (Ok tt, with_arr w this a')).
Proof.
  induction fuel as [|fuel IH]; intros k a Hpq Hk Hfuel Hv; simpl;
    [unfold bind|unfold bind at 1 3].
  - assert (E : Qltb 1 k = false).
    { unfold Qltb. apply negb_false_iff, Qle_bool_iff.
      change (inject_Z (Z.of_nat 0)) with 0%Q in Hfuel. lra. }
    rewrite E. exists (Ok tt), a. auto.
  - destruct (Qltb 1 k) eqn:E; [|exists (Ok tt), a; auto].
    rewrite raising_greater_with, greater_with by assumption. rewrite Hv.
    assert (Hh : (k / 2 == k * (1 # 2))%Q) by field.
    assert (Hlt : (1 < k)%Q).
    { unfold Qltb in E. apply negb_true_iff in E.
      destruct (Qlt_le_dec 1 k) as [Hlt|Hle]; [exact Hlt|].
      apply Qle_bool_iff in Hle. congruence. }
    destruct (raises (arr_get a (k / 2)) v) eqn:R.
    { exists (Throw ComparatorError), a. split; [reflexivity|].
      split; [reflexivity|]. split; [now right|].
      intros Hq. rewrite Hq in R. discriminate. }
    destruct (gt0 _); [|exists (Ok tt), a; auto].
    unfold bind. rewrite exch_with by assumption. rewrite Hv.
    set (a1 := arr_set (k / 2) v (arr_set k (arr_get a (k / 2)) a)).
    assert (Hl1 : arr_length a1 = arr_length a).
    { unfold a1. rewrite !arr_set_length; try reflexivity;
        rewrite ?arr_set_length by assumption; lra. }
    destruct (IH (k / 2)%Q a1 Hpq) as (r & a' & -> & Hl & Hr & Hq).
    { rewrite Hl1. lra. }
    { rewrite inject_Z_succ in Hfuel.
      pose proof (inject_Z_nat_nonneg fuel). lra. }
    { apply arr_get_set_same. }
    exists r, a'. rewrite Hl, Hl1. split; [reflexivity|].
    split; [reflexivity|]. split; [exact Hr|].
    intros Hquiet. destruct (Hq Hquiet) as [-> ->]. auto.
Qed.

Lemma raising_greater_run i j this w :
  Raising.greater raises i j this w =
  (if raises (arr_get (the_arr w (pq (the_obj w this))) i)
             (arr_get (the_arr w (pq (the_obj w this))) j)
   then Throw ComparatorError
   else Ok (gt0 (comparator (the_obj w this)
                   (arr_get (the_arr w (pq (the_obj w this))) i)
                   (arr_get (the_arr w (pq (the_obj w this))) j))), w).
Proof.
  unfold Raising.greater, bind, this_load, bind, get_pq, load, get_comparator.
  now destruct (raises _ _).
Qed.

(** At an odd position [swim] hands [undefined] to the comparator. *)
Lemma raising_swim_odd fuel (k : Z) this w :
  Z.odd k = true -> 1 < k ->
  props (the_arr w (pq (the_obj w this))) = [] ->
  raises None (arr_get (the_arr w (pq (the_obj w this))) (inject_Z k)) = true ->
  Raising.swim raises fuel (inject_Z k) this w = (Throw ComparatorError, w).
Proof.
  intros Hk H1 Hp Hr.
  assert (E : Qltb 1 (inject_Z k) = true).
  { unfold Qltb. apply negb_true_iff.
    destruct (Qle_bool (inject_Z k) 1) eqn:Q; [|reflexivity].
    apply Qle_bool_iff in Q. change 1%Q with (inject_Z 1) in Q.
    rewrite <- Zle_Qle in Q. lia. }
  assert (Hg : Raising.greater raises (inject_Z k / 2) (inject_Z k) this w =
               (Throw ComparatorError, w)).
  { rewrite raising_greater_run. unfold arr_get at 1.
    rewrite (half_odd_not_index k Hk), Hp. cbn [prop_get]. now rewrite Hr. }
  destruct fuel; simpl; unfold bind; now rewrite E, Hg.
Qed.

(** ** The steps of [insert] before [swim] *)

Lemma raising_insert_tail w this (z : Z) c a fuel (x : Key) :
  view w this = Some (z, c, a) ->
  (c0 <- get_n ;;
   set_n (c0 + 1) ;;;
   this_store (inject_Z (c0 + 1)) (Some x) ;;;
   c1 <- get_n ;;
   Raising.swim raises fuel (inject_Z c1)) this w =
  Raising.swim raises fuel (inject_Z (z + 1)) this
    (with_arr (with_n w this (z + 1)) this
       (arr_set (inject_Z (z + 1)) (Some x) a)).
Proof.
  intros Hv. destruct (view_the _ _ _ _ _ Hv) as (Hn & _).
  unfold bind at 1, get_n at 1. rewrite Hn.
  unfold bind at 1, set_n at 1.
  change (mkWorld _ _) with (with_n w this (z + 1)).
  set (w1 := with_n w this (z + 1)).
  pose proof (view_with_n _ _ _ _ _ (z + 1) Hv) as Hv1. fold w1 in Hv1.
  destruct (view_the _ _ _ _ _ Hv1) as (Hn1 & _ & _ & _ & Hpq1 & _).
  assert (Hst : this_store (inject_Z (z + 1)) (Some x) this w1 =
                (Ok tt, with_arr w1 this
                          (arr_set (inject_Z (z + 1)) (Some x) a))).
  { pose proof (this_store_with w1 this a (inject_Z (z + 1)) (Some x) Hpq1)
      as H.
    now rewrite (with_arr_id _ _ _ _ _ Hv1) in H. }
  unfold bind at 1. rewrite Hst.
  unfold bind at 1, get_n at 1.
  change (the_obj (with_arr w1 this _) this) with (the_obj w1 this).
  now rewrite Hn1.
Qed.

(** [insert] is the resize of a full array, the store of the key at
    position [n + 1] and the call of [swim] there. *)
Lemma raising_insert_steps w this (z : Z) c a fuel (x : Key) :
  view w this = Some (z, c, a) ->
  0 <= z <= arr_length a - 1 -> 2 * arr_length a < 2 ^ 32 ->
  exists w0 a0,
    view w0 this = Some (z, c, a0) /\
    arr_length a0 =
      (if z =? arr_length a - 1 then 2 * arr_length a else arr_length a) /\
    props a0 = (if z =? arr_length a - 1 then [] else props a) /\
    (forall p, 1 <= p <= z -> at_ (elems a0) p = at_ (elems a) p) /\
    Raising.insert raises fuel x this w =
      Raising.swim raises fuel (inject_Z (z + 1)) this
        (with_arr (with_n w0 this (z + 1)) this
           (arr_set (inject_Z (z + 1)) (Some x) a0)) /\
    insert fuel x this w =
      swim fuel (inject_Z (z + 1)) this
        (with_arr (with_n w0 this (z + 1)) this
           (arr_set (inject_Z (z + 1)) (Some x) a0)).
Proof.
  intros Hv Hz Hl. destruct (view_the _ _ _ _ _ Hv) as (Hn & _ & Ha & _).
  destruct (Z.eqb_spec z (arr_length a - 1)) as [Hfull|Hroom].
  - destruct (insert_full w this z c a fuel x Hv Hfull Hl) as [Hvr Hi].
    set (w_r := snd (resize _ this w)) in *.
    set (a_r := resize_arr _ a _) in *.
    destruct (resize_arr_spec a (2 * arr_length a) z) as (Hlr & Hpr & Hatr);
      [lia|lia|]. fold a_r in Hlr, Hpr, Hatr.
    exists w_r, a_r. split; [exact Hvr|]. split; [exact Hlr|].
    split; [exact Hpr|]. split; [|split; [|exact Hi]].
    + intros p Hp. rewrite Hatr by lia.
      replace (1 <=? p) with true by (symmetry; apply Z.leb_le; lia).
      replace (p <=? z) with true by (symmetry; apply Z.leb_le; lia).
      reflexivity.
    + unfold Raising.insert. unfold bind at 1, get_n at 1. rewrite Hn.
      unfold bind at 1, this_length at 1. rewrite Ha.
      replace (z =? arr_length a - 1) with true
        by (symmetry; now apply Z.eqb_eq).
      unfold bind at 1. unfold w_r.
      destruct (resize (2 * inject_Z (arr_length a)) this w) as [r w'] eqn:E.
      assert (Hok : array_length_ok (2 * inject_Z (arr_length a)) =
                    Some (Z.to_nat (2 * arr_length a))).
      { rewrite (array_length_ok_Qeq _ (inject_Z (2 * arr_length a))).
        - apply array_length_ok_inject_Z. unfold arr_length in *. lia.
        - rewrite inject_Z_mult. reflexivity. }
      destruct (resize_view _ _ _ _ _ _ _ Hv Hok) as [Hr _].
      rewrite E in Hr. cbn [fst snd] in *. subst r.
      now apply raising_insert_tail with c.
  - exists w, a. split; [exact Hv|]. split; [reflexivity|].
    split; [reflexivity|]. split; [reflexivity|].
    split; [|now apply insert_room with c].
    unfold Raising.insert. unfold bind at 1, get_n at 1. rewrite Hn.
    unfold bind at 1, this_length at 1. rewrite Ha.
    replace (z =? arr_length a - 1) with false
      by (symmetry; now apply Z.eqb_neq).
    unfold bind at 1, ret at 1. now apply raising_insert_tail with c.
Qed.

(** X2: on a heap whose count fits its array, [insert] ends in one of two
    ways: it returns, or the comparator has thrown inside [swim].  Either
    way the count has gone up by one, the comparator is the same, and the
    backing array has doubled in length exactly when it was full.  When the
    comparator throws on no pair whose second argument is the new key,
    [insert] returns, and it is the [insert] of a comparator that never
    throws. *)
Theorem insert_count_capacity w this (z : Z) c a fuel (x : Key) :
  view w this = Some (z, c, a) ->
  0 <= z <= arr_length a - 1 -> 2 * arr_length a < 2 ^ 32 ->
  z <= Z.of_nat fuel ->
  exists a',
    (fst (Raising.insert raises fuel x this w) = Ok tt \/
     fst (Raising.insert raises fuel x this w) = Throw ComparatorError) /\
    view (snd (Raising.insert raises fuel x this w)) this =
      Some (z + 1, c, a') /\
    arr_length a' =
      (if z =? arr_length a - 1 then 2 * arr_length a else arr_length a) /\
    ((forall u, raises u (Some x) = false) ->
     fst (Raising.insert raises fuel x this w) = Ok tt /\
     insert fuel x this w = Raising.insert raises fuel x this w).
Proof.
  intros Hv Hz Hl Hfuel.
  destruct (raising_insert_steps w this z c a fuel x Hv Hz Hl)
    as (w0 & a0 & Hv0 & Hl0 & _ & _ & -> & ->).
  pose proof (view_with_n _ _ _ _ _ (z + 1) Hv0) as Hv1.
  destruct (view_the _ _ _ _ _ Hv1) as (_ & _ & _ & _ & Hpq1 & _).
  assert (Hl2 : arr_length (arr_set (inject_Z (z + 1)) (Some x) a0) =
                arr_length a0).
  { apply arr_set_length. rewrite <- Zle_Qle.
    destruct (z =? arr_length a - 1) eqn:E; [apply Z.eqb_eq in E|
      apply Z.eqb_neq in E]; lia. }
  destruct (raising_swim_spec (with_n w0 this (z + 1)) this (Some x) fuel
              (inject_Z (z + 1))
              (arr_set (inject_Z (z + 1)) (Some x) a0) Hpq1)
    as (r & a' & Hs & Hl' & Hr & Hq).
  { rewrite Hl2, <- Zle_Qle.
    destruct (z =? arr_length a - 1) eqn:E; [apply Z.eqb_eq in E|
      apply Z.eqb_neq in E]; lia. }
  { change 1%Q with (inject_Z 1). rewrite <- inject_Z_plus, <- Zle_Qle. lia. }
  { apply arr_get_set_same. }
  exists a'. rewrite Hs. cbn [fst snd].
  split; [destruct Hr as [-> | ->]; auto|]. split.
  { eapply view_with_arr, Hv1. }
  split; [now rewrite Hl', Hl2|].
  intros Hquiet. destruct (Hq Hquiet) as [-> ->]. auto.
Qed.

(** X14: with a comparator that throws when its first argument is
    [undefined] and its second the new key, [insert] into a heap with an
    even count of at least 2 and no named property on its array ends in
    that exception, whatever the fuel: the new key lands on an odd position
    [k], and [swim] looks for its parent at [k/2].  By then the key is
    stored at the last position, the count is raised and every entry is
    where it was. *)
Theorem insert_throws_at_odd_position w this (z : Z) c a fuel (x : Key) :
  view w this = Some (z, c, a) ->
  2 <= z <= arr_length a - 1 -> 2 * arr_length a < 2 ^ 32 ->
  Z.even z = true -> props a = [] ->
  raises None (Some x) = true ->
  exists a',
    fst (Raising.insert raises fuel x this w) = Throw ComparatorError /\
    view (snd (Raising.insert raises fuel x this w)) this =
      Some (z + 1, c, a') /\
    (forall p, 1 <= p <= z ->
       arr_get a' (inject_Z p) = arr_get a (inject_Z p)) /\
    arr_get a' (inject_Z (z + 1)) = Some x.
Proof.
  intros Hv Hz Hl Heven Hprops Hraises.
  assert (Hodd : Z.odd (z + 1) = true).
  { rewrite Z.odd_add, <- Z.negb_even, Heven. reflexivity. }
  destruct (raising_insert_steps w this z c a fuel x Hv ltac:(lia) Hl)
    as (w0 & a0 & Hv0 & Hl0 & Hp0 & Hat0 & -> & _).
  assert (Hlen0 : z + 1 <= arr_length a0 - 1 /\ arr_length a0 < 2 ^ 32).
  { rewrite Hl0. destruct (z =? arr_length a - 1) eqn:E;
      [apply Z.eqb_eq in E|apply Z.eqb_neq in E]; lia. }
  assert (Hpr0 : props a0 = []).
  { rewrite Hp0. now destruct (z =? arr_length a - 1). }
  pose proof (view_with_n _ _ _ _ _ (z + 1) Hv0) as Hv1.
  pose proof (view_with_arr _ _ _ _ _
                (arr_set (inject_Z (z + 1)) (Some x) a0) Hv1) as Hv2.
  destruct (view_the _ _ _ _ _ Hv2) as (_ & _ & Ha2 & _).
  rewrite raising_swim_odd; [|exact Hodd|lia| |].
  - eexists. split; [reflexivity|]. split; [exact Hv2|].
    rewrite arr_set_index by lia. split.
    + intros p Hp. rewrite !arr_get_index by (unfold arr_length in *; lia).
      cbn [elems]. rewrite at_insert_other by lia. now apply Hat0.
    + rewrite arr_get_index by lia. cbn [elems]. unfold at_.
      rewrite list_lookup_insert_eq; [reflexivity|].
      unfold arr_length, value in *. lia.
  - rewrite Ha2, arr_set_index by lia. exact Hpr0.
  - rewrite Ha2, arr_get_set_same. exact Hraises.
Qed.

End Throwing.

(** * Further theorems *)

Section Extras.

Context {Key : Type}.

Implicit Types (w : @World Key) (o this : oref) (a : @JSArray Key)
  (l : list (@value Key)) (cmp : @Comparator Key).


(** X5: [resize(L)] with the count below [L] moves the heap to a new array
    of length [L] that holds the same entries at positions 1 to [n] and
    [undefined] everywhere else, with no named property; the count and the
    comparator stay, and the old array is left as it was. *)
Theorem resize_keeps_entries w this (z : Z) c a (L : Z) :
  view w this = Some (z, c, a) -> 0 <= z < L -> L < 2 ^ 32 ->
  exists a',
    fst (resize (inject_Z L) this w) = Ok tt /\
    view (snd (resize (inject_Z L) this w)) this = Some (z, c, a') /\
    arr_length a' = L /\ props a' = [] /\
    (forall p, 0 <= p < 2 ^ 32 - 1 ->
       arr_get a' (inject_Z p) =
       if (1 <=? p) && (p <=? z) then arr_get a (inject_Z p) else None) /\
    pq (the_obj (snd (resize (inject_Z L) this w)) this) = length (arrs w) /\
    arrs (snd (resize (inject_Z L) this w)) !! pq (the_obj w this) = Some a.
Proof.
  intros Hv Hz HL.
  assert (Hok : array_length_ok (inject_Z L) = Some (Z.to_nat L))
    by (apply array_length_ok_inject_Z; lia).
  destruct (resize_view _ _ _ _ _ _ _ Hv Hok) as [Hr Hv'].
  destruct (resize_arr_spec a L z Hz HL) as (Hlen & Hprops & Hat).
  destruct (view_the _ _ _ _ _ Hv) as (_ & _ & _ & Hlt & Hpq & Ha).
  eexists. split; [exact Hr|]. split; [exact Hv'|].
  split; [exact Hlen|]. split; [exact Hprops|]. split.
  { intros p Hp. rewrite arr_get_index by lia. rewrite Hat by lia.
    destruct ((1 <=? p) && (p <=? z)); [|reflexivity].
    now rewrite arr_get_index by lia. }
  rewrite (resize_spec _ _ _ _ Hok Hpq). cbn [snd arrs]. split.
  - now rewrite the_obj_insert_eq.
  - now apply lookup_app_l_Some.
Qed.


(** X7: on a heap-ordered heap of keys, under a comparator that is a total
    preorder on keys, [min] returns a key that compares less than or equal
    to every entry. *)
Theorem min_is_least w this (z : Z) c a :
  view w this = Some (z, c, a) ->
  1 <= z <= arr_length a - 1 -> arr_length a < 2 ^ 32 ->
  total_preorder c -> filled (elems a) z -> heap_ordered w this ->
  exists v,
    min this w = (Ok v, w) /\
    forall p, 1 <= p <= z -> le0 (c v (arr_get a (inject_Z p))).
Proof.
  intros Hv Hz Hl Ht Hf Hh.
  destruct (view_the _ _ _ _ _ Hv) as (Hn & _ & Ha & _).
  exists (at_ (elems a) 1). split.
  - rewrite min_nonempty by (rewrite Hn; lia). now rewrite Ha.
  - intros p Hp. rewrite arr_get_index by lia.
    apply root_min with z; auto.
    apply (heap_ordered_list w this z c a); auto. lia.
Qed.

(** X8: on a heap-ordered heap of keys, under a total preorder, [delMin]
    leaves a heap-ordered heap of keys whose entries are the old ones
    without the root, whether it returns or throws. *)
Theorem delMin_keeps_heap_order w this (z : Z) c a fuel :
  view w this = Some (z, c, a) ->
  1 <= z <= arr_length a - 1 -> arr_length a < 2 ^ 32 ->
  z <= Z.of_nat fuel ->
  total_preorder c -> filled (elems a) z -> heap_ordered w this ->
  heap_ordered (snd (delMin fuel this w)) this /\
  exists a',
    view (snd (delMin fuel this w)) this = Some (z - 1, c, a') /\
    filled (elems a') (z - 1) /\
    keys (elems a') (z - 1) ++ [arr_get a 1] ≡ₚ keys (elems a) z.
Proof.
  intros Hv Hz Hl Hfuel Ht Hf Hh.
  destruct (delMin_spec w this z c a fuel Hv Hz Hl Hfuel)
    as (l' & -> & Hlen & Hperm & Hfill & Hheap).
  cbn [snd].
  assert (Hv' : view (with_arr (with_n w this (z - 1)) this
                        (mkArray l' (props a))) this =
                Some (z - 1, c, mkArray l' (props a))).
  { eapply view_with_arr, view_with_n, Hv. }
  split.
  - apply (heap_ordered_list _ this (z - 1) c _ Hv'); [lia|]. cbn [elems].
    apply Hheap; auto.
    apply (heap_ordered_list w this z c a); auto. lia.
  - exists (mkArray l' (props a)). split; [exact Hv'|]. cbn [elems].
    split; [now apply Hfill|exact Hperm].
Qed.

(** ** The traversal *)

Lemma iterator_run fuel w this (z : Z) c a :
  view w this = Some (z, c, a) ->
  exists q w1,
    iterator fuel this w = drain fuel fuel q w1 /\
    view w1 q = Some (z, c, mkArray (elems a) []).
Proof.
  intros Hv. exists (length (objs w)), (snd (copy this w)).
  split; [now apply iterator_spec with z c a|].
  now destruct (copy_views _ _ _ _ _ Hv) as (_ & Hb & _).
Qed.



(** X9: on a heap-ordered heap of keys, under a total preorder, the values
    a traversal yields come in non-decreasing order, each of them an entry
    of the heap. *)
Theorem traversal_sorted_if_ordered w this (z : Z) c a fuel :
  view w this = Some (z, c, a) ->
  0 <= z <= arr_length a - 1 -> arr_length a < 2 ^ 32 ->
  z <= Z.of_nat fuel ->
  total_preorder c -> filled (elems a) z -> heap_ordered w this ->
  exists ys r,
    fst (iterator fuel this w) = Ok (ys, r) /\
    ascending c (yielded ys) /\
    Forall (fun v => v ∈ keys (elems a) z) (yielded ys).
Proof.
  intros Hv Hz Hl Hfuel Ht Hf Hh.
  destruct (iterator_run fuel w this z c a Hv) as (q & w1 & -> & Hv1).
  destruct (drain_spec fuel fuel w1 q z c _ Hv1)
    as (ys & r & Hys & _ & Hin & _ & _ & Hasc); auto.
  exists ys, r. split; [exact Hys|]. split; [|exact Hin].
  apply Hasc; auto. cbn [elems].
  apply (heap_ordered_list w this z c a); auto. lia.
Qed.

(** ** A queue built with the default capacity *)

Lemma steady_insert w this fuel (x : Key) :
  steady w this ->
  steady (snd (insert fuel x this w)) this /\
  n (the_obj (snd (insert fuel x this w)) this) <= n (the_obj w this) + 1.
Proof.
  intros (z & c & a & Hv & Hz & Hl & Hpar).
  destruct (view_the _ _ _ _ _ Hv) as (Hn & _).
  destruct (Z.eq_dec z (arr_length a - 1)) as [Hfull|Hroom];
    [destruct (Z_lt_le_dec (2 * arr_length a) (2 ^ 32)) as [Hsmall|Hbig]|].
  - destruct (insert_view w this z c a fuel x Hv Hz (fun _ => Hsmall))
      as (r & a' & _ & _ & Hv' & Hl').
    destruct (view_the _ _ _ _ _ Hv') as (Hn' & _).
    split; [|lia]. exists (z + 1), c, a'. split; [exact Hv'|].
    rewrite Hl'. replace (z =? arr_length a - 1) with true
      by (symmetry; now apply Z.eqb_eq).
    repeat split; try lia. right. now rewrite Z.even_mul.
  - rewrite (insert_overflow w this z c a fuel x Hv Hfull Hbig).
    cbn [snd]. split; [|lia]. exists z, c, a. auto.
  - destruct (insert_view w this z c a fuel x Hv Hz)
      as (r & a' & _ & _ & Hv' & Hl'); [intros; contradiction|].
    destruct (view_the _ _ _ _ _ Hv') as (Hn' & _).
    split; [|lia]. exists (z + 1), c, a'. split; [exact Hv'|].
    rewrite Hl'. replace (z =? arr_length a - 1) with false
      by (symmetry; now apply Z.eqb_neq).
    repeat split; try lia. exact Hpar.
Qed.

Lemma steady_delMin w this fuel :
  steady w this -> n (the_obj w this) <= Z.of_nat fuel ->
  steady (snd (delMin fuel this w)) this /\
  n (the_obj (snd (delMin fuel this w)) this) <= n (the_obj w this) /\
  fst (delMin fuel this w) <> Throw RangeError.
Proof.
  intros (z & c & a & Hv & Hz & Hl & Hpar) Hfuel.
  destruct (view_the _ _ _ _ _ Hv) as (Hn & _). rewrite Hn in *.
  destruct (Z.eq_dec z 0) as [->|Hz0].
  - destruct (underflow_iff_empty fuel this w) as [H0 _].
    destruct (H0 Hn) as [_ ->]. cbn [fst snd]. rewrite Hn.
    split; [exists 0, c, a; auto|]. split; [lia|discriminate].
  - destruct (delMin_spec w this z c a fuel Hv) as (l' & -> & Hlen & _);
      [lia|lia|lia|].
    cbn [fst snd].
    assert (Hv' : view (with_arr (with_n w this (z - 1)) this
                          (mkArray l' (props a))) this =
                  Some (z - 1, c, mkArray l' (props a))).
    { eapply view_with_arr, view_with_n, Hv. }
    assert (Hal : arr_length (mkArray l' (props a)) = arr_length a).
    { unfold arr_length; cbn [elems]. now rewrite Hlen. }
    destruct (view_the _ _ _ _ _ Hv') as (Hn' & _). rewrite Hn'.
    split; [|split; [lia|]].
    + exists (z - 1), c, (mkArray l' (props a)). rewrite Hal.
      repeat split; auto; lia.
    + destruct ((0 <? z - 1) && (4 * (z - 1) =? arr_length a - 1)) eqn:E;
        [|discriminate].
      exfalso. apply andb_true_iff in E as [E1%Z.ltb_lt E2%Z.eqb_eq].
      destruct Hpar as [H1|Hev]; [lia|].
      replace (arr_length a) with (4 * (z - 1) + 1) in Hev by lia.
      rewrite Z.even_add, Z.even_mul in Hev. discriminate.
Qed.

Lemma steady_run_ops fuel (ops : list (@Op Key)) : forall w this,
  steady w this ->
  n (the_obj w this) + Z.of_nat (length ops) <= Z.of_nat fuel ->
  steady (snd (run_ops fuel ops this w)) this /\
  n (the_obj (snd (run_ops fuel ops this w)) this) <=
    n (the_obj w this) + Z.of_nat (length ops).
Proof.
  induction ops as [|op ops IH]; intros w this Hs Hn; cbn [run_ops].
  - cbn [ret snd length]. split; [exact Hs|lia].
  - cbn [length] in Hn.
    assert (Hstep : exists w1,
      (forall (k : unit -> Meth (Key:=Key) unit),
         bind (run_op fuel op) k this w = k tt this w1) /\
      steady w1 this /\ n (the_obj w1 this) <= n (the_obj w this) + 1).
    { destruct op as [x|]; cbn [run_op].
      - exists (snd (insert fuel x this w)).
        split; [|now apply steady_insert].
        intros k. unfold bind, try, ret.
        now destruct (insert fuel x this w).
      - exists (snd (delMin fuel this w)).
        destruct (steady_delMin w this fuel Hs) as (H1 & H2 & _); [lia|].
        split; [|split; [exact H1|lia]].
        intros k. unfold bind, try, ret.
        now destruct (delMin fuel this w). }
    destruct Hstep as (w1 & Hk & Hs1 & Hn1). rewrite Hk.
    destruct (IH w1 this Hs1) as [H1 H2]; [lia|].
    split; [exact H1|]. cbn [length]. lia.
Qed.

(** X4: a heap whose backing array has length 1 or an even length stays
    that way through any sequence of [insert] and [delMin] calls, its count
    always fitting the array; from there [delMin] never throws RangeError. *)
Theorem steady_never_range_error w this fuel (ops : list (@Op Key)) :
  steady w this ->
  n (the_obj w this) + Z.of_nat (length ops) <= Z.of_nat fuel ->
  steady (snd (run_ops fuel ops this w)) this /\
  fst (delMin fuel this (snd (run_ops fuel ops this w))) <> Throw RangeError.
Proof.
  intros Hs Hn. destruct (steady_run_ops fuel ops w this Hs Hn) as [H1 H2].
  split; [exact H1|]. apply steady_delMin; [exact H1|lia].
Qed.

(** ** [insert] at an odd position *)

(** X11: when the count is even, so that the new key lands on an odd
    position, [insert] leaves every entry where it was and the new key at
    the last position, whatever its rank; this needs only that the array
    has no named property and that the comparator does not rank
    [undefined] above a key. *)
Theorem insert_at_odd_position w this (z : Z) c a fuel (x : Key) :
  view w this = Some (z, c, a) ->
  0 <= z <= arr_length a - 1 -> 2 * arr_length a < 2 ^ 32 ->
  Z.even z = true -> props a = [] ->
  (forall y, gt0 (c None y) = false) ->
  exists a',
    fst (insert fuel x this w) = Ok tt /\
    view (snd (insert fuel x this w)) this = Some (z + 1, c, a') /\
    (forall p, 1 <= p <= z -> arr_get a' (inject_Z p) = arr_get a (inject_Z p)) /\
    arr_get a' (inject_Z (z + 1)) = Some x.
Proof.
  intros Hv Hz Hl Heven Hprops Hc.
  assert (Hodd : Z.odd (z + 1) = true).
  { rewrite Z.odd_add, <- Z.negb_even, Heven. reflexivity. }
  assert (Hcore : forall w_r a_r,
    view w_r this = Some (z, c, a_r) ->
    z + 1 <= arr_length a_r - 1 -> arr_length a_r < 2 ^ 32 ->
    props a_r = [] ->
    (forall p, 1 <= p <= z -> at_ (elems a_r) p = at_ (elems a) p) ->
    exists a',
      fst (swim fuel (inject_Z (z + 1)) this
             (with_arr (with_n w_r this (z + 1)) this
                (arr_set (inject_Z (z + 1)) (Some x) a_r))) = Ok tt /\
      view (snd (swim fuel (inject_Z (z + 1)) this
             (with_arr (with_n w_r this (z + 1)) this
                (arr_set (inject_Z (z + 1)) (Some x) a_r)))) this =
        Some (z + 1, c, a') /\
      (forall p, 1 <= p <= z ->
         arr_get a' (inject_Z p) = arr_get a (inject_Z p)) /\
      arr_get a' (inject_Z (z + 1)) = Some x).
  { intros w_r a_r Hvr Hzr Hlr Hpr Hat.
    pose proof (view_with_n _ _ _ _ _ (z + 1) Hvr) as Hv1.
    pose proof (view_with_arr _ _ _ _ _
                  (arr_set (inject_Z (z + 1)) (Some x) a_r) Hv1) as Hv2.
    destruct (view_the _ _ _ _ _ Hv2) as (_ & Hc2 & Ha2 & _).
    rewrite arr_set_index in * by lia.
    rewrite swim_odd_stays; auto.
    - eexists. split; [reflexivity|]. split; [exact Hv2|]. split.
      + intros p Hp. rewrite !arr_get_index by (unfold arr_length in *; lia).
        cbn [elems]. rewrite at_insert_other by lia. now apply Hat.
      + rewrite arr_get_index by lia. cbn [elems]. unfold at_.
        rewrite list_lookup_insert_eq; [reflexivity|].
        unfold arr_length, value in *. lia.
    - now rewrite Ha2.
    - now rewrite Hc2. }
  destruct (Z.eq_dec z (arr_length a - 1)) as [Hfull|Hroom].
  - destruct (insert_full w this z c a fuel x Hv Hfull Hl) as [Hvr ->].
    destruct (resize_arr_spec a (2 * arr_length a) z) as (Hlr & Hpr & Hatr);
      [lia|lia|].
    apply Hcore; auto; try lia.
    intros p Hp. rewrite Hatr by lia.
    replace (1 <=? p) with true by (symmetry; apply Z.leb_le; lia).
    replace (p <=? z) with true by (symmetry; apply Z.leb_le; lia).
    reflexivity.
  - rewrite (insert_room w this z c a fuel x Hv Hroom).
    apply Hcore; auto; lia.
Qed.

(** ** [insert] on an empty heap *)

Lemma swim_root fuel this w : swim fuel (inject_Z 1) this w = (Ok tt, w).
Proof. destruct fuel; reflexivity. Qed.

(** X12: after [insert(x)] on an empty heap, [min] returns [x], and so does
    [delMin], which leaves the heap empty again. *)
Theorem insert_then_delMin_on_empty w this c a fuel (x : Key) :
  view w this = Some (0, c, a) ->
  1 <= arr_length a -> 2 * arr_length a < 2 ^ 32 -> (1 <= fuel)%nat ->
  let w' := snd (insert fuel x this w) in
  fst (insert fuel x this w) = Ok tt /\
  min this w' = (Ok (Some x), w') /\
  fst (delMin fuel this w') = Ok (Some x) /\
  fst (isEmpty this (snd (delMin fuel this w'))) = Ok true.
Proof.
  intros Hv Hlen Hl Hfuel.
  assert (Hcore : forall w_r a_r,
    view w_r this = Some (0, c, a_r) ->
    2 <= arr_length a_r -> arr_length a_r < 2 ^ 32 ->
    let w' := with_arr (with_n w_r this (0 + 1)) this
                (arr_set (inject_Z (0 + 1)) (Some x) a_r) in
    min this w' = (Ok (Some x), w') /\
    fst (delMin fuel this w') = Ok (Some x) /\
    fst (isEmpty this (snd (delMin fuel this w'))) = Ok true).
  { intros w_r a_r Hvr Hzr Hlr w'.
    pose proof (view_with_n _ _ _ _ _ (0 + 1) Hvr) as Hv1.
    pose proof (view_with_arr _ _ _ _ _
                  (arr_set (inject_Z (0 + 1)) (Some x) a_r) Hv1) as Hv2.
    fold w' in Hv2. rewrite arr_set_index in Hv2 by lia.
    destruct (view_the _ _ _ _ _ Hv2) as (Hn2 & _ & Ha2 & _).
    assert (Hroot : at_ (<[Z.to_nat (0 + 1) := Some x]> (elems a_r)) 1 =
                    Some x).
    { unfold at_. rewrite list_lookup_insert_eq; [reflexivity|].
      unfold arr_length, value in *. lia. }
    assert (Hal : arr_length (mkArray (<[Z.to_nat (0 + 1) := Some x]>
                                         (elems a_r)) (props a_r)) =
                  arr_length a_r).
    { unfold arr_length; cbn [elems]. now rewrite length_insert. }
    split.
    { rewrite min_nonempty by (rewrite Hn2; lia). rewrite Ha2.
      do 2 f_equal. exact Hroot. }
    destruct (delMin_spec w' this (0 + 1) c _ fuel Hv2)
      as (l' & Hdel & _);
      [unfold arr_length in *; cbn [elems]; rewrite ?length_insert;
       unfold value in *; lia ..|].
    rewrite Hdel. cbn [fst snd elems]. split.
    - change (0 <? 0 + 1 - 1) with false. cbn [andb]. f_equal. exact Hroot.
    - unfold isEmpty, bind, get_n, ret.
      change (the_obj (with_arr (with_n w' this (0 + 1 - 1)) this _) this)
        with (the_obj (with_n w' this (0 + 1 - 1)) this).
      assert (Hn3 : n (the_obj (with_n w' this (0 + 1 - 1)) this) = 0).
      { pose proof (view_with_n _ _ _ _ _ (0 + 1 - 1) Hv2) as Hv3.
        now destruct (view_the _ _ _ _ _ Hv3) as (-> & _). }
      now rewrite Hn3. }
  destruct (Z.eq_dec 0 (arr_length a - 1)) as [Hfull|Hroom].
  - destruct (insert_full w this 0 c a fuel x Hv Hfull Hl) as [Hvr Hins].
    destruct (resize_arr_spec a (2 * arr_length a) 0) as (Hlr & _);
      [lia|lia|].
    rewrite Hins, swim_root. cbn [fst snd]. split; [reflexivity|].
    apply Hcore; auto; lia.
  - rewrite (insert_room w this 0 c a fuel x Hv Hroom), swim_root.
    cbn [fst snd]. split; [reflexivity|]. apply Hcore; auto; lia.
Qed.

(** ** The constructor *)

Lemma Qeq_bool_inject_Z_0 (m : Z) : Qeq_bool (inject_Z m) 0 = (m =? 0).
Proof.
  destruct (Z.eqb_spec m 0) as [->|Hne]; [reflexivity|].
  destruct (Qeq_bool (inject_Z m) 0) eqn:E; [|reflexivity].
  exfalso. apply Hne, inject_Z_injective. now apply Qeq_bool_eq.
Qed.

Lemma array_length_ok_neg (m : Z) :
  m < 0 -> array_length_ok (inject_Z m) = None.
Proof.
  intros Hm. unfold array_length_ok. rewrite Qred_inject_Z.
  cbn [Qnum Qden inject_Z].
  replace (0 <=? m) with false by (symmetry; apply Z.leb_gt; lia).
  now rewrite andb_false_r.
Qed.

(** X1: [new MinPQ(cmp)] behaves as [new MinPQ(cmp, 0)]; an integer
    capacity [m] from 0 to [2^32 - 1] yields a new, empty instance with
    comparator [cmp] on an array of [m] holes (one hole when [m] is 0),
    whose count fits the array; a negative or larger [m] throws RangeError
    and leaves the store as it was. *)
Theorem constructor_capacity cmp (m : Z) o w :
  new_MinPQ cmp None o w = new_MinPQ cmp (Some (inject_Z 0)) o w /\
  (0 <= m < 2 ^ 32 ->
   let q := length (objs w) in
   let w' := snd (new_MinPQ cmp (Some (inject_Z m)) o w) in
   fst (new_MinPQ cmp (Some (inject_Z m)) o w) = Ok q /\
   view w' q =
     Some (0, cmp,
           mkArray (replicate (Z.to_nat (if m =? 0 then 1 else m)) None) []) /\
   cap_ok w' q /\
   fst (isEmpty q w') = Ok true) /\
  (m < 0 \/ 2 ^ 32 <= m ->
   new_MinPQ cmp (Some (inject_Z m)) o w = (Throw RangeError, w)).
Proof.
  split; [reflexivity|]. split.
  - intros Hm q w'.
    set (L := if m =? 0 then 1 else m).
    assert (HL : 1 <= L < 2 ^ 32) by (unfold L; destruct (Z.eqb_spec m 0); lia).
    assert (Hrun : new_MinPQ cmp (Some (inject_Z m)) o w =
      (Ok q, mkWorld (objs w ++ [mkPQ (length (arrs w)) 0 cmp])
                     (arrs w ++ [mkArray (replicate (Z.to_nat L) None) []]))).
    { unfold new_MinPQ, bind, new_Array. rewrite Qeq_bool_inject_Z_0.
      replace (if m =? 0 then 1%Q else inject_Z m) with (inject_Z L)
        by (unfold L; now destruct (m =? 0)).
      now rewrite array_length_ok_inject_Z by lia. }
    unfold w'. rewrite Hrun. cbn [fst snd].
    assert (Hv : view (mkWorld (objs w ++ [mkPQ (length (arrs w)) 0 cmp])
                         (arrs w ++ [mkArray (replicate (Z.to_nat L) None) []]))
                      q =
                 Some (0, cmp, mkArray (replicate (Z.to_nat L) None) [])).
    { apply (view_intro _ q (mkPQ (length (arrs w)) 0 cmp)); cbn [objs arrs pq].
      - unfold q. rewrite lookup_app_r by lia.
        now replace (length (objs w) - length (objs w))%nat with 0%nat by lia.
      - rewrite lookup_app_r by lia.
        now replace (length (arrs w) - length (arrs w))%nat with 0%nat by lia. }
    split; [reflexivity|]. split; [exact Hv|]. split.
    + exists 0, cmp, (mkArray (replicate (Z.to_nat L) None) []).
      split; [exact Hv|]. unfold arr_length; cbn [elems].
      rewrite length_replicate. lia.
    + destruct (view_the _ _ _ _ _ Hv) as (Hn & _).
      unfold isEmpty, bind, get_n, ret. now rewrite Hn.
  - intros Hm. unfold new_MinPQ, bind, new_Array.
    rewrite Qeq_bool_inject_Z_0.
    replace (m =? 0) with false by (symmetry; apply Z.eqb_neq; lia).
    destruct Hm as [Hm|Hm];
      [rewrite array_length_ok_neg by lia
      |rewrite array_length_ok_big by lia]; reflexivity.
Qed.

(** ** [exch] *)

(** X13: [exch(i, j)] on two positions of the backing array exchanges the
    two entries and changes nothing else: every other position, the length,
    the named properties, the count and the comparator stay. *)
Theorem exch_swaps w this (z : Z) c a (i j : Z) :
  view w this = Some (z, c, a) ->
  0 <= i < arr_length a -> 0 <= j < arr_length a -> arr_length a < 2 ^ 32 ->
  exists a',
    fst (exch (inject_Z i) (inject_Z j) this w) = Ok tt /\
    view (snd (exch (inject_Z i) (inject_Z j) this w)) this =
      Some (z, c, a') /\
    arr_length a' = arr_length a /\ props a' = props a /\
    forall p, 0 <= p < 2 ^ 32 - 1 ->
      arr_get a' (inject_Z p) =
      if p =? j then arr_get a (inject_Z i)
      else if p =? i then arr_get a (inject_Z j)
      else arr_get a (inject_Z p).
Proof.
  intros Hv Hi Hj Hl.
  destruct (view_the _ _ _ _ _ Hv) as (_ & _ & _ & _ & Hpq & _).
  pose proof (exch_with w this a (inject_Z i) (inject_Z j) Hpq) as Hex.
  rewrite (with_arr_id _ _ _ _ _ Hv) in Hex.
  rewrite exch_arr in Hex by lia.
  exists (mkArray (swap (elems a) i j) (props a)). rewrite Hex. cbn [fst snd].
  split; [reflexivity|]. split; [eapply view_with_arr, Hv|].
  split; [unfold arr_length; cbn [elems]; now rewrite swap_length|].
  split; [reflexivity|]. intros p Hp.
  rewrite !arr_get_index by lia. cbn [elems].
  apply at_swap; unfold arr_length in *; lia.
Qed.

End Extras.

(** * The further theorems at the sample heaps *)

Lemma num_cmp_le (x y : Z) : le0 (num_cmp (Some x) (Some y)) <-> x <= y.
Proof.
  unfold num_cmp, le0, Qle, inject_Z; cbn [Qnum Qden]. lia.
Qed.

Lemma num_cmp_gt (x y : Z) :
  gt0 (num_cmp (Some x) (Some y)) = true <-> y < x.
Proof.
  unfold num_cmp, gt0. rewrite negb_true_iff. split.
  - intros H. destruct (Z_lt_le_dec y x) as [|Hle]; [assumption|].
    exfalso. assert (Ht : Qle_bool (inject_Z (x - y)) 0 = true).
    { apply Qle_bool_iff. unfold Qle, inject_Z; cbn [Qnum Qden]. lia. }
    congruence.
  - intros H. destruct (Qle_bool _ _) eqn:E; [|reflexivity].
    apply Qle_bool_iff in E. unfold Qle, inject_Z in E; cbn [Qnum Qden] in E.
    lia.
Qed.

Lemma num_cmp_total_preorder : total_preorder num_cmp.
Proof.
  repeat split.
  - intros x y H. apply num_cmp_le.
    destruct (Z_lt_le_dec y x) as [Hlt|]; [|assumption].
    apply num_cmp_gt in Hlt. congruence.
  - intros x y H%num_cmp_gt. apply num_cmp_le. lia.
  - intros x y z H1 H2. apply num_cmp_le.
    pose proof (proj1 (num_cmp_le x y) H1).
    pose proof (proj1 (num_cmp_le y z) H2). lia.
Qed.

Lemma four_view : view four 0%nat = Some (4, num_cmp, four_arr).
Proof. vm_compute; reflexivity. Qed.

Lemma four_filled : filled (elems four_arr) 4.
Proof.
  intros p Hp.
  assert (H : p = 1 \/ p = 2 \/ p = 3 \/ p = 4) by lia.
  destruct H as [->|[->|[->| ->]]]; vm_compute; discriminate.
Qed.

Lemma four_heap_ordered : heap_ordered four 0%nat.
Proof.
  apply (heap_ordered_list four 0%nat 4 num_cmp four_arr four_view);
    [vm_compute; reflexivity|].
  intros p ch Hp Hch Hz. unfold is_child in Hch.
  assert (H : (p = 1 /\ ch = 2) \/ (p = 1 /\ ch = 3) \/ (p = 2 /\ ch = 4))
    by lia.
  destruct H as [[-> ->]|[[-> ->]|[-> ->]]];
    apply num_cmp_le; lia.
Qed.

Lemma fresh_view :
  view fresh 0%nat = Some (0, num_cmp, mkArray [None] []).
Proof. vm_compute; reflexivity. Qed.

Lemma four_bounds :
  0 <= 4 <= arr_length four_arr - 1 /\ arr_length four_arr < 2 ^ 32 /\
  2 * arr_length four_arr < 2 ^ 32 /\ 4 <= Z.of_nat 10.
Proof.
  repeat split; vm_compute; (reflexivity || discriminate).
Qed.

Lemma constructor_capacity_witness :
  new_MinPQ num_cmp None 0%nat empty_world =
    new_MinPQ num_cmp (Some (inject_Z 0)) 0%nat empty_world /\
  (0 <= 5 < 2 ^ 32 /\
   let q := length (objs (@empty_world Z)) in
   let w' := snd (new_MinPQ num_cmp (Some (inject_Z 5)) 0%nat empty_world) in
   fst (new_MinPQ num_cmp (Some (inject_Z 5)) 0%nat empty_world) = Ok q /\
   view w' q =
     Some (0, num_cmp,
           mkArray (replicate (Z.to_nat (if 5 =? 0 then 1 else 5)) None) []) /\
   cap_ok w' q /\
   fst (isEmpty q w') = Ok true) /\
  ((-1 < 0 \/ 2 ^ 32 <= -1) /\
   new_MinPQ num_cmp (Some (inject_Z (-1))) 0%nat empty_world =
     (Throw RangeError, empty_world)).
Proof.
  assert (H5 : 0 <= 5 < 2 ^ 32) by (vm_compute; split; [discriminate|reflexivity]).
  assert (Hm : -1 < 0 \/ 2 ^ 32 <= -1) by (left; reflexivity).
  split; [exact (proj1 (constructor_capacity num_cmp 0 0%nat empty_world))|].
  split.
  - split; [exact H5|].
    exact (proj1 (proj2 (constructor_capacity num_cmp 5 0%nat empty_world)) H5).
  - split; [exact Hm|].
    exact (proj2 (proj2 (constructor_capacity num_cmp (-1) 0%nat empty_world))
             Hm).
Defined.

Lemma insert_count_capacity_witness :
  view four 0%nat = Some (4, num_cmp, four_arr) /\
  0 <= 4 <= arr_length four_arr - 1 /\ 2 * arr_length four_arr < 2 ^ 32 /\
  4 <= Z.of_nat 10 /\
  exists a',
    (fst (Raising.insert raises_on_undefined 10 0 0%nat four) = Ok tt \/
     fst (Raising.insert raises_on_undefined 10 0 0%nat four) =
       Throw ComparatorError) /\
    view (snd (Raising.insert raises_on_undefined 10 0 0%nat four)) 0%nat =
      Some (4 + 1, num_cmp, a') /\
    arr_length a' =
      (if 4 =? arr_length four_arr - 1
       then 2 * arr_length four_arr else arr_length four_arr) /\
    ((forall u, raises_on_undefined u (Some 0) = false) ->
     fst (Raising.insert raises_on_undefined 10 0 0%nat four) = Ok tt /\
     insert 10 0 0%nat four =
     Raising.insert raises_on_undefined 10 0 0%nat four).
Proof.
  destruct four_bounds as (H1 & H2 & H3 & H4).
  split; [exact four_view|]. split; [exact H1|]. split; [exact H3|].
  split; [exact H4|].
  exact (insert_count_capacity raises_on_undefined four 0%nat 4 num_cmp
           four_arr 10 0 four_view H1 H3 H4).
Defined.

Lemma insert_throws_at_odd_position_witness :
  view four 0%nat = Some (4, num_cmp, four_arr) /\
  2 <= 4 <= arr_length four_arr - 1 /\ 2 * arr_length four_arr < 2 ^ 32 /\
  Z.even 4 = true /\ props four_arr = [] /\
  raises_on_undefined None (Some 0) = true /\
  exists a',
    fst (Raising.insert raises_on_undefined 10 0 0%nat four) =
      Throw ComparatorError /\
    view (snd (Raising.insert raises_on_undefined 10 0 0%nat four)) 0%nat =
      Some (4 + 1, num_cmp, a') /\
    (forall p, 1 <= p <= 4 ->
       arr_get a' (inject_Z p) = arr_get four_arr (inject_Z p)) /\
    arr_get a' (inject_Z (4 + 1)) = Some 0.
Proof.
  destruct four_bounds as (H1 & H2 & H3 & H4).
  assert (Hz : 2 <= 4 <= arr_length four_arr - 1) by lia.
  split; [exact four_view|]. split; [exact Hz|]. split; [exact H3|].
  split; [reflexivity|]. split; [reflexivity|]. split; [reflexivity|].
  exact (insert_throws_at_odd_position raises_on_undefined four 0%nat 4
           num_cmp four_arr 10 0 four_view Hz H3 eq_refl eq_refl eq_refl).
Defined.


Lemma steady_never_range_error_witness :
  steady fresh 0%nat /\
  n (the_obj fresh 0%nat) + Z.of_nat (length sample_ops) <= Z.of_nat 10 /\
  steady (snd (run_ops 10 sample_ops 0%nat fresh)) 0%nat /\
  fst (delMin 10 0%nat (snd (run_ops 10 sample_ops 0%nat fresh))) <>
    Throw RangeError.
Proof.
  assert (Hs : steady fresh 0%nat).
  { exists 0, num_cmp, (mkArray [None] []). split; [exact fresh_view|].
    repeat split; vm_compute; (discriminate || reflexivity || auto). }
  assert (Hn : n (the_obj fresh 0%nat) + Z.of_nat (length sample_ops) <=
               Z.of_nat 10) by (vm_compute; discriminate).
  split; [exact Hs|]. split; [exact Hn|].
  exact (steady_never_range_error fresh 0%nat 10 sample_ops Hs Hn).
Defined.

Lemma resize_keeps_entries_witness :
  view four 0%nat = Some (4, num_cmp, four_arr) /\
  0 <= 4 < 16 /\ 16 < 2 ^ 32 /\
  exists a',
    fst (resize (inject_Z 16) 0%nat four) = Ok tt /\
    view (snd (resize (inject_Z 16) 0%nat four)) 0%nat =
      Some (4, num_cmp, a') /\
    arr_length a' = 16 /\ props a' = [] /\
    (forall p, 0 <= p < 2 ^ 32 - 1 ->
       arr_get a' (inject_Z p) =
       if (1 <=? p) && (p <=? 4) then arr_get four_arr (inject_Z p)
       else None) /\
    pq (the_obj (snd (resize (inject_Z 16) 0%nat four)) 0%nat) =
      length (arrs four) /\
    arrs (snd (resize (inject_Z 16) 0%nat four)) !! pq (the_obj four 0%nat) =
      Some four_arr.
Proof.
  assert (H1 : 0 <= 4 < 16) by lia.
  assert (H2 : 16 < 2 ^ 32) by reflexivity.
  split; [exact four_view|]. split; [exact H1|]. split; [exact H2|].
  exact (resize_keeps_entries four 0%nat 4 num_cmp four_arr 16
           four_view H1 H2).
Defined.


Lemma min_is_least_witness :
  view four 0%nat = Some (4, num_cmp, four_arr) /\
  1 <= 4 <= arr_length four_arr - 1 /\ arr_length four_arr < 2 ^ 32 /\
  total_preorder num_cmp /\ filled (elems four_arr) 4 /\
  heap_ordered four 0%nat /\
  exists v,
    min 0%nat four = (Ok v, four) /\
    forall p, 1 <= p <= 4 ->
      le0 (num_cmp v (arr_get four_arr (inject_Z p))).
Proof.
  destruct four_bounds as (H1 & H2 & H3 & H4).
  assert (H1' : 1 <= 4 <= arr_length four_arr - 1) by (split; [lia|apply H1]).
  split; [exact four_view|]. split; [exact H1'|]. split; [exact H2|].
  split; [exact num_cmp_total_preorder|]. split; [exact four_filled|].
  split; [exact four_heap_ordered|].
  exact (min_is_least four 0%nat 4 num_cmp four_arr four_view H1' H2
           num_cmp_total_preorder four_filled four_heap_ordered).
Defined.

Lemma delMin_keeps_heap_order_witness :
  view four 0%nat = Some (4, num_cmp, four_arr) /\
  1 <= 4 <= arr_length four_arr - 1 /\ arr_length four_arr < 2 ^ 32 /\
  4 <= Z.of_nat 10 /\
  total_preorder num_cmp /\ filled (elems four_arr) 4 /\
  heap_ordered four 0%nat /\
  heap_ordered (snd (delMin 10 0%nat four)) 0%nat /\
  exists a',
    view (snd (delMin 10 0%nat four)) 0%nat = Some (4 - 1, num_cmp, a') /\
    filled (elems a') (4 - 1) /\
    keys (elems a') (4 - 1) ++ [arr_get four_arr 1] ≡ₚ
      keys (elems four_arr) 4.
Proof.
  destruct four_bounds as (H1 & H2 & H3 & H4).
  assert (H1' : 1 <= 4 <= arr_length four_arr - 1) by (split; [lia|apply H1]).
  split; [exact four_view|]. split; [exact H1'|]. split; [exact H2|].
  split; [exact H4|].
  split; [exact num_cmp_total_preorder|]. split; [exact four_filled|].
  split; [exact four_heap_ordered|].
  exact (delMin_keeps_heap_order four 0%nat 4 num_cmp four_arr 10 four_view
           H1' H2 H4 num_cmp_total_preorder four_filled four_heap_ordered).
Defined.


Lemma traversal_sorted_if_ordered_witness :
  view four 0%nat = Some (4, num_cmp, four_arr) /\
  0 <= 4 <= arr_length four_arr - 1 /\ arr_length four_arr < 2 ^ 32 /\
  4 <= Z.of_nat 10 /\
  total_preorder num_cmp /\ filled (elems four_arr) 4 /\
  heap_ordered four 0%nat /\
  exists ys r,
    fst (iterator 10 0%nat four) = Ok (ys, r) /\
    ascending num_cmp (yielded ys) /\
    Forall (fun v => v ∈ keys (elems four_arr) 4) (yielded ys).
Proof.
  destruct four_bounds as (H1 & H2 & H3 & H4).
  split; [exact four_view|]. split; [exact H1|]. split; [exact H2|].
  split; [exact H4|].
  split; [exact num_cmp_total_preorder|]. split; [exact four_filled|].
  split; [exact four_heap_ordered|].
  exact (traversal_sorted_if_ordered four 0%nat 4 num_cmp four_arr 10
           four_view H1 H2 H4 num_cmp_total_preorder four_filled
           four_heap_ordered).
Defined.

Lemma insert_at_odd_position_witness :
  view four 0%nat = Some (4, num_cmp, four_arr) /\
  0 <= 4 <= arr_length four_arr - 1 /\ 2 * arr_length four_arr < 2 ^ 32 /\
  Z.even 4 = true /\ props four_arr = [] /\
  (forall y, gt0 (num_cmp None y) = false) /\
  exists a',
    fst (insert 10 0 0%nat four) = Ok tt /\
    view (snd (insert 10 0 0%nat four)) 0%nat = Some (4 + 1, num_cmp, a') /\
    (forall p, 1 <= p <= 4 ->
       arr_get a' (inject_Z p) = arr_get four_arr (inject_Z p)) /\
    arr_get a' (inject_Z (4 + 1)) = Some 0.
Proof.
  destruct four_bounds as (H1 & H2 & H3 & H4).
  assert (Hc : forall y, gt0 (num_cmp None y) = false) by reflexivity.
  split; [exact four_view|]. split; [exact H1|]. split; [exact H3|].
  split; [reflexivity|]. split; [reflexivity|]. split; [exact Hc|].
  exact (insert_at_odd_position four 0%nat 4 num_cmp four_arr 10 0
           four_view H1 H3 eq_refl eq_refl Hc).
Defined.

Lemma insert_then_delMin_on_empty_witness :
  view fresh 0%nat = Some (0, num_cmp, mkArray [None] []) /\
  1 <= arr_length (mkArray (Key:=Z) [None] []) /\
  2 * arr_length (mkArray (Key:=Z) [None] []) < 2 ^ 32 /\
  (1 <= 10)%nat /\
  let w' := snd (insert 10 7 0%nat fresh) in
  fst (insert 10 7 0%nat fresh) = Ok tt /\
  min 0%nat w' = (Ok (Some 7), w') /\
  fst (delMin 10 0%nat w') = Ok (Some 7) /\
  fst (isEmpty 0%nat (snd (delMin 10 0%nat w'))) = Ok true.
Proof.
  assert (H1 : 1 <= arr_length (mkArray (Key:=Z) [None] []))
    by (vm_compute; discriminate).
  assert (H2 : 2 * arr_length (mkArray (Key:=Z) [None] []) < 2 ^ 32)
    by (vm_compute; reflexivity).
  assert (H3 : (1 <= 10)%nat) by lia.
  split; [exact fresh_view|]. split; [exact H1|]. split; [exact H2|].
  split; [exact H3|].
  exact (insert_then_delMin_on_empty fresh 0%nat num_cmp
           (mkArray [None] []) 10 7 fresh_view H1 H2 H3).
Defined.

Lemma exch_swaps_witness :
  view four 0%nat = Some (4, num_cmp, four_arr) /\
  0 <= 1 < arr_length four_arr /\ 0 <= 4 < arr_length four_arr /\
  arr_length four_arr < 2 ^ 32 /\
  exists a',
    fst (exch (inject_Z 1) (inject_Z 4) 0%nat four) = Ok tt /\
    view (snd (exch (inject_Z 1) (inject_Z 4) 0%nat four)) 0%nat =
      Some (4, num_cmp, a') /\
    arr_length a' = arr_length four_arr /\ props a' = props four_arr /\
    forall p, 0 <= p < 2 ^ 32 - 1 ->
      arr_get a' (inject_Z p) =
      if p =? 4 then arr_get four_arr (inject_Z 1)
      else if p =? 1 then arr_get four_arr (inject_Z 4)
      else arr_get four_arr (inject_Z p).
Proof.
  destruct four_bounds as (H1 & H2 & H3 & H4).
  assert (Hi : 0 <= 1 < arr_length four_arr) by lia.
  assert (Hj : 0 <= 4 < arr_length four_arr) by lia.
  split; [exact four_view|]. split; [exact Hi|]. split; [exact Hj|].
  split; [exact H2|].
  exact (exch_swaps four 0%nat 4 num_cmp four_arr 1 4 four_view Hi Hj H2).
Defined.
